(** * gocrawler: a shallow embedding of the concurrent crawl engine

    The development follows the Go sources package by package:
    - [Go]         machine integers, durations, errors and buffered channels;
    - [RateLimiter] crawler/ratelimiter.go (token bucket on a channel);
    - [Storage]    storage: [Results], [AddPage], [GetStats];
    - [Crawler]    crawler: visited set, scope policy, the monitor goroutine,
                   and the worker loop as a small-step transition system in
                   which every step is one atomic action of one goroutine. *)

From Stdlib Require Import ZArith List String Ascii Bool Lia.
From Stdlib Require Import Floats.PrimFloat Numbers.Cyclic.Int63.Uint63.
From Stdlib Require Import Numbers.DecimalString.
From stdpp Require Import base gmap strings list.

Local Open Scope Z_scope.

(* ===================================================================== *)
(** ** Go runtime notions used by the program                             *)
(* ===================================================================== *)

Module Go.

(** A computation either returns or panics (a run-time panic unwinds the
    goroutine and, unrecovered, stops the program). *)
Inductive result (A : Type) : Type :=
| Ok (a : A)
| Panic (msg : string).
Arguments Ok {A} a.
Arguments Panic {A} msg.

Definition is_panic {A} (r : result A) : bool :=
  match r with Ok _ => false | Panic _ => true end.

Definition bind {A B} (r : result A) (k : A -> result B) : result B :=
  match r with Ok a => k a | Panic m => Panic m end.

(** [int] and [int64] are 64-bit two's complement on the supported
    platforms; arithmetic wraps. *)
Definition min_int : Z := - 2 ^ 63.
Definition max_int : Z := 2 ^ 63 - 1.
Definition in_int (z : Z) : Prop := min_int <= z <= max_int.
Definition wrap (z : Z) : Z := (z + 2 ^ 63) mod 2 ^ 64 - 2 ^ 63.

Definition add (a b : Z) : Z := wrap (a + b).

(** Integer division truncates toward zero and panics on a zero divisor. *)
Definition div (a b : Z) : result Z :=
  if b =? 0 then Panic "runtime error: integer divide by zero"
  else Ok (wrap (Z.quot a b)).

(** package time: a [Duration] is an int64 count of nanoseconds. *)
Definition Millisecond : Z := 1000000.
Definition Second : Z := 1000000000.
(** [Duration.Milliseconds] is [int64(d) / 1e6]. *)
Definition Milliseconds (d : Z) : Z := Z.quot d 1000000.

(** [time.NewTicker d] panics unless [d] is positive. *)
Definition NewTicker (d : Z) : result Z :=
  if d <=? 0 then Panic "non-positive interval for NewTicker" else Ok d.

(** The [error] interface: [None] is [nil], [Some s] an error whose
    [Error()] text is [s]. *)
Definition error : Type := option string.

(** Buffered channels: the queued elements (oldest first), the capacity
    and the closed flag. *)
Record chan (A : Type) : Type := Chan {
  buf : list A;
  cap : nat;
  closed : bool
}.
Arguments Chan {A} buf cap closed.
Arguments buf {A} c.
Arguments cap {A} c.
Arguments closed {A} c.

(** [make(chan A, n)] panics on a negative size. *)
Definition make_chan {A} (n : Z) : result (chan A) :=
  if n <? 0 then Panic "makechan: size out of range"
  else Ok (Chan [] (Z.to_nat n) false).

Definition has_room {A} (c : chan A) : bool :=
  (length (buf c) <? cap c)%nat.

Definition push {A} (c : chan A) (a : A) : chan A :=
  Chan (buf c ++ [a]) (cap c) (closed c).

(** A plain send [c <- a]: panics on a closed channel, completes when
    the buffer has room (a waiting receiver would take the element out
    of the buffer in its own step), and otherwise blocks. *)
Inductive send_outcome (A : Type) : Type :=
| Sent (c : chan A)
| SendBlocks
| SendPanics.
Arguments Sent {A} c.
Arguments SendBlocks {A}.
Arguments SendPanics {A}.

Definition send {A} (c : chan A) (a : A) : send_outcome A :=
  if closed c then SendPanics
  else if has_room c then Sent (push c a)
  else SendBlocks.

(** A receive [a, ok := <-c]: the oldest buffered element, or the zero
    value with [ok = false] from a closed and drained channel, or it
    blocks ([None]). *)
Definition recv {A} (c : chan A) : option (option A * chan A) :=
  match buf c with
  | a :: rest => Some (Some a, Chan rest (cap c) (closed c))
  | [] => if closed c then Some (None, c) else None
  end.

Definition close {A} (c : chan A) : result (chan A) :=
  if closed c then Panic "close of closed channel"
  else Ok (Chan (buf c) (cap c) true).

(** The conversion [float64(n)] of an int64 (round to nearest even). *)
Definition float64_of_int (z : Z) : float :=
  if z =? min_int
  then PrimFloat.opp (PrimFloat.mul (PrimFloat.of_uint63 (Uint63.of_Z (2 ^ 62)))
                                    (PrimFloat.of_uint63 (Uint63.of_Z 2)))
  else if z <? 0
  then PrimFloat.opp (PrimFloat.of_uint63 (Uint63.of_Z (- z)))
  else PrimFloat.of_uint63 (Uint63.of_Z z).

(** The verb [%d] of package fmt on an int. *)
Definition format_d (z : Z) : string := NilZero.string_of_int (Z.to_int z).

End Go.

Import Go.

(* ===================================================================== *)
(** ** crawler/ratelimiter.go                                             *)
(* ===================================================================== *)

Module RateLimiter.

(** [RateLimiter]: the ticker (its period, and whether it still runs)
    and the token channel of [struct{}] values. *)
Record t : Type := Mk {
  interval : Z;
  ticking : bool;
  tokens : chan unit
}.

Definition count (rl : t) : nat := length (buf (tokens rl)).
Definition capacity (rl : t) : nat := cap (tokens rl).

(** The initial fill loop [for i := 0; i < n; i++ { tokens <- struct{}{} }]
    with [n - i] iterations left; [None] when a send would block for
    ever (nothing receives during construction). *)
Fixpoint fill (left : nat) (c : chan unit) : option (result (chan unit)) :=
  match left with
  | O => Some (Ok c)
  | S left' =>
      match send c tt with
      | Sent c' => fill left' c'
      | SendBlocks => None
      | SendPanics => Some (Panic "send on closed channel")
      end
  end.

(** [NewRateLimiter requestsPerSecond]; [None] would be a constructor
    that never returns. *)
Definition NewRateLimiter (requestsPerSecond : Z) : option (result t) :=
  match div Second requestsPerSecond with
  | Panic m => Some (Panic m)
  | Ok interval =>
      match NewTicker interval with
      | Panic m => Some (Panic m)
      | Ok period =>
          match make_chan requestsPerSecond with
          | Panic m => Some (Panic m)
          | Ok ch =>
              match fill (Z.to_nat requestsPerSecond) ch with
              | None => None
              | Some (Panic m) => Some (Panic m)
              | Some (Ok ch') => Some (Ok (Mk period true ch'))
              end
          end
      end
  end.

(** One iteration of the refill goroutine, for a tick it has received:
    [select { case tokens <- struct{}{}: default: }]. The send case of
    a select on a closed channel is ready and panics, default or not.
    [ticker.Stop] only keeps further ticks from being produced: a tick
    the goroutine has already received when [Stop] closes the channel
    is still handled, by this same select. *)
Definition refill (rl : t) : result t :=
  if closed (tokens rl) then Panic "send on closed channel"
  else if has_room (tokens rl)
       then Ok (Mk (interval rl) (ticking rl) (push (tokens rl) tt))
       else Ok rl.

(** [Wait ctx]: a select over a token receive and [ctx.Done()]. When
    both are ready the runtime picks either ([prefer_done] is that
    choice). [None]: the caller stays blocked. The boolean tells
    whether a token was taken from the buffer. *)
Definition Wait (ctx_done prefer_done : bool) (rl : t) : option (t * bool) :=
  match recv (tokens rl) with
  | Some (got, c') =>
      if ctx_done && prefer_done then Some (rl, false)
      else Some (Mk (interval rl) (ticking rl) c',
                 match got with Some _ => true | None => false end)
  | None => if ctx_done then Some (rl, false) else None
  end.

(** [Stop]: stops the ticker and closes the token channel. *)
Definition Stop (rl : t) : result t :=
  match close (tokens rl) with
  | Panic m => Panic m
  | Ok c' => Ok (Mk (interval rl) false c')
  end.

(** What can happen to a limiter after construction: the refill
    goroutine handles a tick, a caller waits, the owner stops it. *)
Inductive event : Type :=
| Tick
| Acquire (ctx_done prefer_done : bool)
| Shutdown.

(** A blocked [Wait] leaves the limiter as it is. *)
Definition step (ev : event) (rl : t) : result t :=
  match ev with
  | Tick => refill rl
  | Acquire d p =>
      match Wait d p rl with
      | Some (rl', _) => Ok rl'
      | None => Ok rl
      end
  | Shutdown => Stop rl
  end.

Fixpoint run (evs : list event) (rl : t) : result t :=
  match evs with
  | [] => Ok rl
  | ev :: evs' => bind (step ev rl) (run evs')
  end.

(** What every reachable limiter satisfies: the bucket never holds more
    than its capacity, and the ticker runs exactly while the channel is
    open. *)
Definition wf (rl : t) : Prop :=
  (count rl <= capacity rl)%nat /\ ticking rl = negb (closed (tokens rl)).

End RateLimiter.

(* ===================================================================== *)
(** ** storage: the results sink                                          *)
(* ===================================================================== *)

Module Storage.

(** [Page]: [ResponseTime] is a [time.Duration], [CrawledAt] the
    reading of the clock at insertion. *)
Record Page : Type := MkPage {
  URL : string;
  Title : string;
  Description : string;
  Links : list string;
  ResponseTime : Z;
  Success : bool;
  Error : string;
  CrawledAt : Z
}.

Record Stats : Type := MkStats {
  TotalPages : Z;
  UniqueLinks : Z;
  AvgResponseTime : float;
  SuccessCount : Z;
  FailCount : Z;
  Duration : Z
}.

Record Results : Type := MkResults {
  pages : list Page;
  duration : Z
}.

Definition NewResults : Results := MkResults [] 0.

(** [AddPage]; [now] is what [time.Now()] returns during the call. *)
Definition AddPage (url title description : string) (links : list string)
    (responseTime : Z) (err : error) (now : Z) (r : Results) : Results :=
  let page :=
    MkPage url title description links responseTime
           (match err with None => true | Some _ => false end)
           (match err with None => "" | Some text => text end)
           now in
  MkResults (pages r ++ [page]) (duration r).

Definition GetPages (r : Results) : list Page := pages r.

(** The locals of the loop of [GetStats]. *)
Record tally : Type := MkTally {
  totalTime : Z;
  successes : Z;
  failures : Z;
  uniqueLinks : gset string
}.

Definition tally0 : tally := MkTally 0 0 0 ∅.

(** One iteration of [for _, page := range r.pages]. *)
Definition tally_page (a : tally) (page : Page) : tally :=
  MkTally (add (totalTime a) (ResponseTime page))
          (if Success page then add (successes a) 1 else successes a)
          (if Success page then failures a else add (failures a) 1)
          (uniqueLinks a ∪ list_to_set (Links page)).

Definition GetStats (r : Results) : Stats :=
  let total := Z.of_nat (length (pages r)) in
  if total =? 0 then MkStats total 0 PrimFloat.zero 0 0 (duration r)
  else
    let a := fold_left tally_page (pages r) tally0 in
    MkStats total
            (Z.of_nat (size (uniqueLinks a)))
            (PrimFloat.div (float64_of_int (Milliseconds (totalTime a)))
                           (float64_of_int total))
            (successes a)
            (failures a)
            (duration r).

Definition SetDuration (d : Z) (r : Results) : Results :=
  MkResults (pages r) d.

(** The arguments of one call of [AddPage], with the clock it reads. *)
Record call : Type := MkCall {
  c_url : string;
  c_title : string;
  c_description : string;
  c_links : list string;
  c_responseTime : Z;
  c_err : error;
  c_now : Z
}.

Definition AddPage_call (r : Results) (c : call) : Results :=
  AddPage (c_url c) (c_title c) (c_description c) (c_links c)
          (c_responseTime c) (c_err c) (c_now c) r.

(** The store after a sequence of [AddPage] calls on a new store. *)
Definition after_calls (calls : list call) : Results :=
  fold_left AddPage_call calls NewResults.

Definition nil_error (c : call) : bool :=
  match c_err c with None => true | Some _ => false end.


(** The exact sum of the response times (nanoseconds). *)
Definition total_time (calls : list call) : Z :=
  fold_right (fun c acc => c_responseTime c + acc) 0 calls.



End Storage.

(* ===================================================================== *)
(** ** parser: what a parsed page carries                                 *)
(* ===================================================================== *)

Module Parser.

Record PageInfo : Type := MkPageInfo {
  Title : string;
  Description : string;
  Links : list string
}.

End Parser.

(* ===================================================================== *)
(** ** crawler: the crawl engine                                          *)
(* ===================================================================== *)

Module Crawler.

(** Package net/url as the crawler uses it: [url.Parse] ([None] when it
    returns an error), the fields [Scheme] and [Host] of a parsed URL,
    [ResolveReference] and [String]. *)
Class NetURL : Type := {
  Url : Type;
  Scheme : Url -> string;
  Host : Url -> string;
  url_Parse : string -> option Url;
  ResolveReference : Url -> Url -> Url;
  url_String : Url -> string
}.

Record Job : Type := MkJob {
  URL : string;
  Depth : Z
}.

(** [Crawler]; of the HTTP client only the timeout is kept. *)
Record Crawler : Type := MkCrawler {
  workers : Z;
  maxDepth : Z;
  rateLimiter : RateLimiter.t;
  results : Storage.Results;
  visited : gmap string bool;
  clientTimeout : Z;
  startTime : Z
}.

Definition New (workers rateLimit maxDepth : Z) (results : Storage.Results)
  : option (result Crawler) :=
  match RateLimiter.NewRateLimiter rateLimit with
  | None => None
  | Some (Panic m) => Some (Panic m)
  | Some (Ok rl) =>
      Some (Ok (MkCrawler workers maxDepth rl results ∅ (10 * Second) 0))
  end.

(** [isVisited]: one critical section under the read lock. A missing
    key reads as [false]. *)
Definition isVisited (c : Crawler) (url : string) : bool :=
  default false (visited c !! url).

(** [markVisited]: one critical section under the write lock. *)
Definition markVisited (c : Crawler) (url : string) : Crawler :=
  MkCrawler (workers c) (maxDepth c) (rateLimiter c) (results c)
            (<[url := true]> (visited c)) (clientTimeout c) (startTime c).

(** Lines 126-130 of [worker] run by one goroutine with no other
    goroutine in between: the check, then the mark. The boolean tells
    whether the caller goes on to fetch. *)
Definition claim (c : Crawler) (url : string) : bool * Crawler :=
  if isVisited c url then (false, c) else (true, markVisited c url).

Definition with_limiter (rl : RateLimiter.t) (c : Crawler) : Crawler :=
  MkCrawler (workers c) (maxDepth c) rl (results c) (visited c)
            (clientTimeout c) (startTime c).

Definition with_results (rs : Storage.Results) (c : Crawler) : Crawler :=
  MkCrawler (workers c) (maxDepth c) (rateLimiter c) rs (visited c)
            (clientTimeout c) (startTime c).

Definition with_startTime (t0 : Z) (c : Crawler) : Crawler :=
  MkCrawler (workers c) (maxDepth c) (rateLimiter c) (results c) (visited c)
            (clientTimeout c) t0.

(** *** The monitor goroutine of [Crawl] *)

Definition queueCapacity : Z := 100.
Definition pollInterval : Z := 500 * Millisecond.
Definition stableLimit : Z := 3.

(** The locals of the goroutine: the period of its ticker and the two
    counters. *)
Record monitor : Type := MkMonitor {
  ticker : Z;
  prevVisited : Z;
  stableCount : Z
}.

Definition monitor0 : monitor := MkMonitor pollInterval 0 0.

(** The body of [case <-ticker.C]; the boolean is true when the
    goroutine goes on to [jobsDone <- true; return]. *)
Definition monitor_poll (currentVisited : Z) (m : monitor) : monitor * bool :=
  let stable :=
    if currentVisited =? prevVisited m then add (stableCount m) 1 else 0 in
  (MkMonitor (ticker m) currentVisited stable, stableLimit <=? stable).

(** What reaches the monitor's select. *)
Inductive monitor_event : Type :=
| CtxDone
| Polled (currentVisited : Z).

(** The monitor loop over the events it receives: the number of events
    consumed when it signals [jobsDone], [None] while it still runs. *)
Fixpoint monitor_loop (evs : list monitor_event) (m : monitor) : option nat :=
  match evs with
  | [] => None
  | CtxDone :: _ => Some 1%nat
  | Polled n :: evs' =>
      let '(m', fire) := monitor_poll n m in
      if fire then Some 1%nat
      else option_map S (monitor_loop evs' m')
  end.

(** *** One select with a send, a [ctx.Done()] receive and a default *)

Inductive enqueue_outcome : Type :=
| Enqueued (q : chan Job)
| Dropped
| Cancelled
| SendOnClosed.

(** [select { case jobs <- j: case <-ctx.Done(): return; default: }].
    A send on a closed channel is ready (and panics); among several
    ready cases the runtime picks one, [prefer_done] being its pick. *)
Definition enqueue_select (ctx_done prefer_done : bool) (q : chan Job) (j : Job)
  : enqueue_outcome :=
  let send_ready := closed q || has_room q in
  if ctx_done && (prefer_done || negb send_ready) then Cancelled
  else if closed q then SendOnClosed
  else if has_room q then Enqueued (push q j)
  else Dropped.

(** *** The environment of a worker step *)

Inductive parse_result : Type :=
| ParseFailed (err : string)
| Parsed (info : Parser.PageInfo).

(** What [client.Get] and then [parser.Parse] give for a job. *)
Inductive get_result : Type :=
| GetFailed (err : string)
| GetResponse (StatusCode : Z) (body : parse_result).

Record input : Type := MkInput {
  prefer_done : bool;      (* the runtime's pick in a select *)
  fetched : get_result;    (* the answer of the network and the parser *)
  elapsed : Z;             (* time.Since(start) *)
  now : Z                  (* time.Now() *)
}.

Section Engine.
Context {net : NetURL}.

(** [resolveURL] *)
Definition resolveURL (base : Url) (href : string) : string :=
  match url_Parse href with
  | None => ""
  | Some link => url_String (ResolveReference base link)
  end.

(** [shouldCrawl] *)
Definition shouldCrawl (targetURL : string) (baseURL : Url) : bool :=
  match url_Parse targetURL with
  | None => false
  | Some target =>
      String.eqb (Host target) (Host baseURL)
      && (String.eqb (Scheme target) "http" || String.eqb (Scheme target) "https")
  end.

(** Where a worker goroutine stands in [worker]. *)
Inductive wstate : Type :=
| WIdle                                   (* at the select of the loop *)
| WCheck (job : Job)                      (* before isVisited *)
| WMark (job : Job)                       (* before markVisited *)
| WWait (job : Job)                       (* before rateLimiter.Wait *)
| WFetch (job : Job)                      (* before client.Get *)
| WEnqueue (job : Job) (baseURL : Url) (links : list string)
                                          (* in the loop over the links *)
| WExited                                 (* returned *)
| WPanicked.

(** Where [Crawl] itself stands. *)
Inductive main_state : Type :=
| MainWaiting        (* at <-jobsDone *)
| MainSignalled      (* received; before close(jobs) *)
| MainJoining        (* at wg.Wait() *)
| MainStopped.       (* returned *)

Inductive mstate : Type :=
| MRunning (m : monitor)
| MDone.

(** One crawl: the crawler, the job queue, the context, and all the
    goroutines of [Crawl]. *)
Record Run : Type := MkRun {
  crawler : Crawler;
  jobs : chan Job;
  ctx_done : bool;
  mon : mstate;
  main : main_state;
  pool : list wstate;
  crashed : bool
}.

Definition with_crawler (c : Crawler) (r : Run) : Run :=
  MkRun c (jobs r) (ctx_done r) (mon r) (main r) (pool r) (crashed r).
Definition with_jobs (q : chan Job) (r : Run) : Run :=
  MkRun (crawler r) q (ctx_done r) (mon r) (main r) (pool r) (crashed r).
Definition with_worker (i : nat) (w : wstate) (r : Run) : Run :=
  MkRun (crawler r) (jobs r) (ctx_done r) (mon r) (main r)
        (<[i := w]> (pool r)) (crashed r).
Definition with_mon (m : mstate) (r : Run) : Run :=
  MkRun (crawler r) (jobs r) (ctx_done r) m (main r) (pool r) (crashed r).
Definition with_main (m : main_state) (r : Run) : Run :=
  MkRun (crawler r) (jobs r) (ctx_done r) (mon r) m (pool r) (crashed r).
Definition cancel (r : Run) : Run :=
  MkRun (crawler r) (jobs r) true (mon r) (main r) (pool r) (crashed r).
Definition crash (r : Run) : Run :=
  MkRun (crawler r) (jobs r) (ctx_done r) (mon r) (main r) (pool r) true.

(** [Crawl] up to the start of the monitor: the queue is made, the
    workers are started and the seed job is sent. *)
Definition Crawl_start (c : Crawler) (startURL : string) (t0 : Z) : Run :=
  MkRun (with_startTime t0 c)
        (push (Chan [] (Z.to_nat queueCapacity) false) (MkJob startURL 0))
        false
        (MRunning monitor0)
        MainWaiting
        (replicate (Z.to_nat (workers c)) WIdle)
        false.

(** [c.results.AddPage(job.URL, ...)] by a worker. *)
Definition record (job : Job) (title description : string)
    (links : list string) (inp : input) (err : error) (r : Run) : Run :=
  with_crawler
    (with_results
       (Storage.AddPage (URL job) title description links (elapsed inp)
                        err (now inp) (results (crawler r)))
       (crawler r)) r.

(** The step of worker [i] from [w]; [None] when the goroutine is
    blocked, has ended, or the environment's answer is impossible
    ([client.Get] answers only for an address that [url.Parse]
    accepts). *)
Definition worker_step (i : nat) (inp : input) (w : wstate) (r : Run)
  : option Run :=
  match w with
  | WIdle =>
      match recv (jobs r) with
      | Some (got, q') =>
          if ctx_done r && prefer_done inp then Some (with_worker i WExited r)
          else match got with
               | Some job => Some (with_worker i (WCheck job) (with_jobs q' r))
               | None => Some (with_worker i WExited r)
               end
      | None =>
          if ctx_done r then Some (with_worker i WExited r) else None
      end
  | WCheck job =>
      if isVisited (crawler r) (URL job)
      then Some (with_worker i WIdle r)
      else Some (with_worker i (WMark job) r)
  | WMark job =>
      Some (with_worker i (WWait job)
              (with_crawler (markVisited (crawler r) (URL job)) r))
  | WWait job =>
      match RateLimiter.Wait (ctx_done r) (prefer_done inp)
                             (rateLimiter (crawler r)) with
      | Some (rl', _) =>
          Some (with_worker i (WFetch job)
                  (with_crawler (with_limiter rl' (crawler r)) r))
      | None => None
      end
  | WFetch job =>
      match fetched inp with
      | GetFailed e =>
          Some (with_worker i WIdle (record job "" "" [] inp (Some e) r))
      | GetResponse status body =>
          match url_Parse (URL job) with
          | None => None
          | Some baseURL =>
              if negb (status =? 200)
              then Some (with_worker i WIdle
                           (record job "" "" [] inp
                                   (Some ("status " ++ format_d status)%string) r))
              else
                match body with
                | ParseFailed e =>
                    Some (with_worker i WIdle
                            (record job "" "" [] inp (Some e) r))
                | Parsed info =>
                    let r' := record job (Parser.Title info)
                                     (Parser.Description info)
                                     (Parser.Links info) inp None r in
                    if Depth job <? maxDepth (crawler r)
                    then Some (with_worker i
                                 (WEnqueue job baseURL (Parser.Links info)) r')
                    else Some (with_worker i WIdle r')
                end
          end
      end
  | WEnqueue job baseURL links =>
      match links with
      | [] => Some (with_worker i WIdle r)
      | link :: rest =>
          let childURL := resolveURL baseURL link in
          if negb (String.eqb childURL "") && shouldCrawl childURL baseURL
          then
            match enqueue_select (ctx_done r) (prefer_done inp) (jobs r)
                                 (MkJob childURL (add (Depth job) 1)) with
            | Enqueued q' =>
                Some (with_worker i (WEnqueue job baseURL rest) (with_jobs q' r))
            | Dropped => Some (with_worker i (WEnqueue job baseURL rest) r)
            | Cancelled => Some (with_worker i WExited r)
            | SendOnClosed => Some (crash (with_worker i WPanicked r))
            end
          else Some (with_worker i (WEnqueue job baseURL rest) r)
      end
  | WExited => None
  | WPanicked => None
  end.

Definition exited (w : wstate) : bool :=
  match w with WExited => true | _ => false end.

(** The events of a run: a step of worker [i], a tick of the rate
    limiter, a pass of the monitor through its select, the caller's
    [cancel()], a step of [Crawl] itself. *)
Inductive event : Type :=
| Work (i : nat) (inp : input)
| Refill
| Monitor (tick_ready pick_done : bool)
| Cancel
| Main (t : Z).

(** [jobsDone <- true; return]: [Crawl] is the receiver. *)
Definition signal (r : Run) : option Run :=
  match main r with
  | MainWaiting => Some (with_main MainSignalled (with_mon MDone r))
  | _ => None
  end.

Definition step (ev : event) (r : Run) : option Run :=
  if crashed r then None else
  match ev with
  | Work i inp =>
      match pool r !! i with
      | Some w => worker_step i inp w r
      | None => None
      end
  | Refill =>
      match RateLimiter.refill (rateLimiter (crawler r)) with
      | Ok rl' => Some (with_crawler (with_limiter rl' (crawler r)) r)
      | Panic _ => Some (crash r)
      end
  | Monitor tick_ready pick_done =>
      match mon r with
      | MDone => None
      | MRunning m =>
          if ctx_done r && (pick_done || negb tick_ready) then signal r
          else if tick_ready then
            let '(m', fire) :=
              monitor_poll (Z.of_nat (size (visited (crawler r)))) m in
            if fire then signal r else Some (with_mon (MRunning m') r)
          else None
      end
  | Cancel => Some (cancel r)
  | Main t =>
      match main r with
      | MainWaiting => None
      | MainSignalled =>
          match close (jobs r) with
          | Ok q' => Some (with_main MainJoining (with_jobs q' r))
          | Panic _ => Some (crash r)
          end
      | MainJoining =>
          if forallb exited (pool r)
          then Some (with_main MainStopped
                       (with_crawler
                          (with_results
                             (Storage.SetDuration
                                (add t (- startTime (crawler r)))
                                (results (crawler r)))
                             (crawler r)) r))
          else None
      | MainStopped => None
      end
  end.

(** A schedule is run event by event; [None] when an event is not
    enabled where it stands. *)
Fixpoint run (evs : list event) (r : Run) : option Run :=
  match evs with
  | [] => Some r
  | ev :: evs' =>
      match step ev r with
      | Some r' => run evs' r'
      | None => None
      end
  end.

(** *** Predicates on runs used by the properties *)


(** The job a worker holds, if any. *)
Definition held (w : wstate) : option Job :=
  match w with
  | WCheck j | WMark j | WWait j | WFetch j | WEnqueue j _ _ => Some j
  | WIdle | WExited | WPanicked => None
  end.



(** An address on the site [h]: it parses, with host [h] and scheme http
    or https. *)
Definition same_site (h : string) (addr : string) : Prop :=
  exists u, url_Parse addr = Some u /\ Host u = h
            /\ (Scheme u = "http" \/ Scheme u = "https").

(** Every job is the seed or an address on the seed's site, and a worker
    resolves links against a page of that site. *)
Definition job_in_scope (seed : string) (h : string) (j : Job) : Prop :=
  URL j = seed \/ same_site h (URL j).

Definition worker_in_scope (seed : string) (h : string) (w : wstate) : Prop :=
  match w with
  | WCheck j | WMark j | WWait j | WFetch j => job_in_scope seed h j
  | WEnqueue j baseURL _ => job_in_scope seed h j /\ Host baseURL = h
  | WIdle | WExited | WPanicked => True
  end.

Definition scope_inv (seed : string) (h : string) (r : Run) : Prop :=
  Forall (job_in_scope seed h) (buf (jobs r))
  /\ Forall (worker_in_scope seed h) (pool r).


End Engine.

End Crawler.

(* ===================================================================== *)
(** ** A small instance of net/url for running the engine                 *)
(* ===================================================================== *)

Module PlainURL.

(** The addresses [http://host/path#fragment], [https://host/path#fragment]
    and the references [/path#fragment] and [#fragment], read the way
    net/url reads them. Other strings are rejected by this instance
    (net/url accepts more); it serves to run the engine on examples. *)
Record t : Type := Mk {
  scheme : string;
  host : string;
  path : string;
  fragment : string
}.

(** [strings.Cut s sep] for a one-byte separator. *)
Fixpoint cut (sep : ascii) (s : string) : string * string :=
  match s with
  | EmptyString => (EmptyString, EmptyString)
  | String a s' =>
      if Ascii.eqb a sep then (EmptyString, s')
      else let '(before, after) := cut sep s' in (String a before, after)
  end.

(** The authority up to the first slash, and the path from it on. *)
Fixpoint split_host (s : string) : string * string :=
  match s with
  | EmptyString => (EmptyString, EmptyString)
  | String a s' =>
      if Ascii.eqb a "/" then (EmptyString, s)
      else let '(h, p) := split_host s' in (String a h, p)
  end.

Definition drop (n : nat) (s : string) : string :=
  String.substring n (String.length s - n) s.

Definition parse (raw : string) : option t :=
  let '(body, frag) := cut "#" raw in
  if String.prefix "http://" body then
    let '(h, p) := split_host (drop 7 body) in Some (Mk "http" h p frag)
  else if String.prefix "https://" body then
    let '(h, p) := split_host (drop 8 body) in Some (Mk "https" h p frag)
  else if String.prefix "/" body then Some (Mk "" "" body frag)
  else if String.eqb body "" then Some (Mk "" "" "" frag)
  else None.

Definition resolve (base ref : t) : t :=
  if negb (String.eqb (scheme ref) "") then ref
  else if String.eqb (path ref) ""
  then Mk (scheme base) (host base) (path base)
          (if String.eqb (fragment ref) "" then fragment base else fragment ref)
  else Mk (scheme base) (host base) (path ref) (fragment ref).

Definition to_string (u : t) : string :=
  ((if String.eqb (scheme u) "" then "" else scheme u ++ "://" ++ host u)
   ++ path u
   ++ (if String.eqb (fragment u) "" then "" else "#" ++ fragment u))%string.

Definition net : Crawler.NetURL :=
  {| Crawler.Url := t;
     Crawler.Scheme := scheme;
     Crawler.Host := host;
     Crawler.url_Parse := parse;
     Crawler.ResolveReference := resolve;
     Crawler.url_String := to_string |}.

End PlainURL.

(* ===================================================================== *)
(** ** Inputs of the example runs                                         *)
(* ===================================================================== *)

Module Scenario.
Import Crawler.

(** An input for the steps that read nothing from the environment but
    the runtime's pick in a select. *)
Definition idle : input := MkInput false (GetFailed "") 0 0.

(** The network answers 200 and the parser finds [links]. *)
Definition answer (links : list string) : input :=
  MkInput false (GetResponse 200 (Parsed (Parser.MkPageInfo "page" "" links))) 5 7.

(** The network answers with [status]. *)
Definition status (code : Z) : input :=
  MkInput false (GetResponse code (ParseFailed "")) 5 7.

(** A worker takes the seed from the queue, claims it and gets a token. *)
Definition take_seed (i : nat) : list event :=
  [Work i idle; Work i idle; Work i idle; Work i idle].

(** Two workers and a page with two links to the same address: worker 0
    fetches the seed and enqueues both links; each worker takes one of
    them; both read the visited set before either marks it. *)
Definition race : list event :=
  take_seed 0
  ++ [Work 0 (answer ["/a"; "http://ex.test/a"]);
      Work 0 idle; Work 0 idle; Work 0 idle;
      Work 0 idle; Work 1 idle;          (* both dequeue *)
      Work 0 idle; Work 1 idle;          (* both isVisited: false *)
      Work 0 idle; Work 1 idle;          (* both markVisited *)
      Work 0 idle; Work 1 idle].         (* both rateLimiter.Wait *)

(** 101 distinct links. *)
Definition many_links : list string :=
  map (fun n => ("/p" ++ format_d (Z.of_nat n))%string) (seq 0 101).

(** Worker 0 fetches the seed and sends the first 100 links. *)
Definition fill_queue : list event :=
  take_seed 0 ++ [Work 0 (answer many_links)] ++ repeat (Work 0 idle) 100.

(** The crawler [New workers 10 maxDepth results] returns. *)
Definition crawler_of (workers maxDepth : Z) : Crawler :=
  MkCrawler workers maxDepth
            (RateLimiter.Mk 100000000 true (Chan (repeat tt 10) 10 false))
            Storage.NewResults ∅ (10 * Second) 0.

End Scenario.

(* ===================================================================== *)
(** ** The claims in the words of the specification                       *)
(* ===================================================================== *)

Module Spec.

(** The specification's normal form of an address: the fragment (the
    first [#] and what follows) is stripped. *)
Definition normalize (url : string) : string := fst (PlainURL.cut "#" url).

(** The specification's run configuration: workerCount > 0,
    requestsPerSecond > 0, maxDepth >= 0. *)
Definition valid_config (workerCount requestsPerSecond maxDepth : Z) : Prop :=
  0 < workerCount /\ 0 < requestsPerSecond /\ 0 <= maxDepth.

(** The specification's average response time: the sum of the response
    times of all pages, in milliseconds, divided by the number of
    pages. *)
Definition average_response_time (calls : list Storage.call) : float :=
  PrimFloat.div
    (float64_of_int (Milliseconds (Storage.total_time calls)))
    (float64_of_int (Z.of_nat (length calls))).

End Spec.

(* ===================================================================== *)
(** ** parser: link extraction                                            *)
(* ===================================================================== *)

Module ParserCode.
Import Parser.

(** The loop of [uniqueStrings], with its map [seen] and its slice
    [result]. *)
Fixpoint uniqueStrings_loop (slice : list string) (seen : gmap string bool)
    (result : list string) : list string :=
  match slice with
  | [] => result
  | item :: rest =>
      if default false (seen !! item)
      then uniqueStrings_loop rest seen result
      else uniqueStrings_loop rest (<[item := true]> seen) (result ++ [item])
  end.

Definition uniqueStrings (slice : list string) : list string :=
  uniqueStrings_loop slice ∅ [].

(** Package golang.org/x/net/html: a parsed document is a tree of nodes;
    the children stand for the chain FirstChild, NextSibling. *)
Inductive NodeType : Type :=
| ErrorNode | TextNode | DocumentNode | ElementNode
| CommentNode | DoctypeNode | RawNode.

Record Attribute : Type := MkAttr {
  Namespace : string;
  Key : string;
  Val : string
}.

#[local] Unset Elimination Schemes.
Inductive Node : Type :=
| MkNode (kind : NodeType) (Data : string) (Attr : list Attribute)
         (children : list Node).
#[local] Set Elimination Schemes.

Definition node_kind (n : Node) : NodeType :=
  match n with MkNode k _ _ _ => k end.
Definition node_Data (n : Node) : string :=
  match n with MkNode _ d _ _ => d end.
Definition node_Attr (n : Node) : list Attribute :=
  match n with MkNode _ _ a _ => a end.
Definition node_children (n : Node) : list Node :=
  match n with MkNode _ _ _ c => c end.

Definition is_element (k : NodeType) : bool :=
  match k with ElementNode => true | _ => false end.

(** [n] is [doc] or one of its descendants. *)
Inductive occurs (n : Node) : Node -> Prop :=
| occurs_here : occurs n n
| occurs_below k d a cs c : In c cs -> occurs n c -> occurs n (MkNode k d a cs).

Section Traverse.
(** [strings.TrimSpace] is taken as given. *)
Variable TrimSpace : string -> string.

(** The test of [Parse] on a trimmed href. *)
Definition keeps (href : string) : bool :=
  negb (String.eqb href "")
  && negb (String.prefix "#" href)
  && negb (String.prefix "javascript:" href).

(** The loop over the attributes of a [meta] element, with its locals
    [name] and [content]. *)
Fixpoint meta_scan (attrs : list Attribute) (name content : string)
  : string * string :=
  match attrs with
  | [] => (name, content)
  | attr :: rest =>
      let name' :=
        if String.eqb (Key attr) "name" && String.eqb (Val attr) "description"
        then Val attr else name in
      let content' :=
        if String.eqb (Key attr) "content" then Val attr else content in
      meta_scan rest name' content'
  end.

(** The loop over the attributes of an [a] element. *)
Fixpoint href_scan (attrs : list Attribute) (links : list string) : list string :=
  match attrs with
  | [] => links
  | attr :: rest =>
      if String.eqb (Key attr) "href"
      then let href := TrimSpace (Val attr) in
           if keeps href then href_scan rest (links ++ [href])
           else href_scan rest links
      else href_scan rest links
  end.

(** The switch of [traverse] on one node. *)
Definition visit (n : Node) (info : PageInfo) : PageInfo :=
  if is_element (node_kind n) then
    if String.eqb (node_Data n) "title" then
      match node_children n with
      | first :: _ =>
          MkPageInfo (TrimSpace (node_Data first)) (Description info) (Links info)
      | [] => info
      end
    else if String.eqb (node_Data n) "meta" then
      let '(name, content) := meta_scan (node_Attr n) "" "" in
      if String.eqb name "description"
      then MkPageInfo (Title info) content (Links info)
      else info
    else if String.eqb (node_Data n) "a" then
      MkPageInfo (Title info) (Description info)
                 (href_scan (node_Attr n) (Links info))
    else info
  else info.

(** [traverse]: the node, then its children from first to last. *)
Fixpoint traverse (n : Node) (info : PageInfo) : PageInfo :=
  match n with
  | MkNode k d a cs =>
      fold_left (fun acc c => traverse c acc) cs (visit (MkNode k d a cs) info)
  end.

(** [Parse body baseURL], given what [html.Parse body] returns: the
    document or the text of the error. *)
Definition Parse (parsed : Node + string) (baseURL : string)
  : PageInfo + string :=
  match parsed with
  | inr err => inr err
  | inl doc =>
      let info := traverse doc (MkPageInfo "" "" []) in
      inl (MkPageInfo (Title info) (Description info)
                      (uniqueStrings (Links info)))
  end.

End Traverse.

(** White space of the ASCII range trimmed at both ends: what
    [strings.TrimSpace] does on text whose other characters are not
    white space. It serves to run [Parse] on examples. *)
Definition ascii_space (a : ascii) : bool :=
  let n := nat_of_ascii a in
  ((9 <=? n)%nat && (n <=? 13)%nat) || (n =? 32)%nat.

Fixpoint trim_left (s : string) : string :=
  match s with
  | String a s' => if ascii_space a then trim_left s' else s
  | EmptyString => EmptyString
  end.

Fixpoint trim_right (s : string) : string :=
  match s with
  | String a s' =>
      match trim_right s' with
      | EmptyString => if ascii_space a then EmptyString else String a EmptyString
      | t => String a t
      end
  | EmptyString => EmptyString
  end.

Definition trim_ascii (s : string) : string := trim_right (trim_left s).

End ParserCode.

(* ===================================================================== *)
(** ** parser: the anchors of a document                                  *)
(* ===================================================================== *)

Module Anchors.
Import Parser ParserCode.

Section Anchors.
Variable TrimSpace : string -> string.

(** [link] is the trimmed href of an [a] element of [doc] that passes
    the parser's test. *)
Definition anchor_link (doc : Node) (link : string) : Prop :=
  exists m attr,
    occurs m doc
    /\ node_kind m = ElementNode /\ node_Data m = "a"
    /\ In attr (node_Attr m) /\ Key attr = "href"
    /\ link = TrimSpace (Val attr)
    /\ keeps link = true.

(** [text] is the trimmed data of the first child of a [title] element
    of [doc]. *)
Definition title_text (doc : Node) (text : string) : Prop :=
  exists m first rest,
    occurs m doc
    /\ node_kind m = ElementNode /\ node_Data m = "title"
    /\ node_children m = first :: rest
    /\ text = TrimSpace (node_Data first).

End Anchors.

(** A small document: a title, two anchors to the same address, a
    fragment link and a script link. *)
Definition sample_doc : Node :=
  MkNode DocumentNode "" []
    [MkNode ElementNode "html" []
       [MkNode ElementNode "head" []
          [MkNode ElementNode "title" [] [MkNode TextNode " Home " [] []]];
        MkNode ElementNode "body" []
          [MkNode ElementNode "a" [MkAttr "" "href" " /a "] [];
           MkNode ElementNode "a" [MkAttr "" "href" "#top"] [];
           MkNode ElementNode "a" [MkAttr "" "href" "javascript:void(0)"] [];
           MkNode ElementNode "a" [MkAttr "" "href" "/a"] []]]].

End Anchors.

(* ===================================================================== *)
(** ** Callers in sequence                                                *)
(* ===================================================================== *)

Module Sequences.
Import Crawler.

(** [n] calls of [Wait] one after the other with a context that is not
    cancelled; [None] when one of them blocks. *)
Fixpoint Waits (n : nat) (rl : RateLimiter.t) : option RateLimiter.t :=
  match n with
  | O => Some rl
  | S n' =>
      match RateLimiter.Wait false false rl with
      | Some (rl', _) => Waits n' rl'
      | None => None
      end
  end.

(** The addresses in [urls] are claimed one after the other, each claim
    running to its end before the next starts: the addresses whose claim
    succeeded, in order, and the crawler at the end. *)
Fixpoint claims (urls : list string) (c : Crawler) : list string * Crawler :=
  match urls with
  | [] => ([], c)
  | url :: rest =>
      let '(ok, c') := claim c url in
      let '(won, c'') := claims rest c' in
      (if ok then url :: won else won, c'')
  end.

End Sequences.

(* ===================================================================== *)
(** ** Measures and predicates on runs                                    *)
(* ===================================================================== *)

Module RunState.
Import Crawler.

Definition is_refill (ev : event) : bool :=
  match ev with Refill => true | _ => false end.

Definition is_cancel (ev : event) : bool :=
  match ev with Cancel => true | _ => false end.

(** The ticks of the rate limiter's ticker in a schedule. *)
Definition ticks (evs : list event) : nat := length (List.filter is_refill evs).

Section RunState.
Context {net : NetURL}.

(** A worker past [markVisited] holds a job whose address is marked. *)
Definition marked (c : Crawler) (w : wstate) : Prop :=
  match w with
  | WWait j | WFetch j | WEnqueue j _ _ => isVisited c (URL j) = true
  | WIdle | WCheck _ | WMark _ | WExited | WPanicked => True
  end.

(** The workers that passed [rateLimiter.Wait] and have not recorded
    their page yet. *)
Definition fetching (w : wstate) : nat :=
  match w with WFetch _ => 1 | _ => 0 end.

Fixpoint in_flight (ws : list wstate) : nat :=
  match ws with
  | [] => 0
  | w :: ws' => fetching w + in_flight ws'
  end.

(** The fetches started so far: the pages recorded and the fetches in
    flight. *)
Definition started (r : Run) : nat :=
  length (Storage.pages (results (crawler r))) + in_flight (pool r).

(** The rate limiter of the run was never stopped. *)
Definition limiter_live (c : Crawler) : Prop :=
  RateLimiter.ticking (rateLimiter c) = true
  /\ closed (RateLimiter.tokens (rateLimiter c)) = false.

(** The queue is closed exactly from [close(jobs)] on. *)
Definition draining (r : Run) : Prop :=
  main r = MainJoining \/ main r = MainStopped.

(** The rendezvous on [jobsDone]: [Crawl] waits for the signal exactly
    while the monitor goroutine runs, and the queue is closed exactly
    from [close(jobs)] on. *)
Definition handshake (r : Run) : Prop :=
  (main r = MainWaiting <-> exists m, mon r = MRunning m)
  /\ (closed (jobs r) = true <-> draining r).

End RunState.

(** The monitor gives up while worker 0 is still fetching the seed;
    [Crawl] closes the queue; the fetch then returns with a link. *)
Definition late_link : list event :=
  Scenario.take_seed 0
  ++ [Monitor true false; Monitor true false; Monitor true false;
      Monitor true false; Main 9;
      Work 0 (Scenario.answer ["/a"])].

End RunState.

(* ===================================================================== *)
(** ** A crawl with one worker                                            *)
(* ===================================================================== *)

Module Solo.
Import Crawler.

Section Solo.
Context {net : NetURL}.

(** What the only worker knows of its job's address, [urls] being the
    addresses of the pages recorded so far: unmarked between the check
    and the mark, then marked and not yet recorded until its page is
    stored. *)
Definition solo_guard (c : Crawler) (urls : list string) (w : wstate) : Prop :=
  match w with
  | WMark j => isVisited c (URL j) = false
  | WWait j | WFetch j => isVisited c (URL j) = true /\ ~ In (URL j) urls
  | WIdle | WCheck _ | WEnqueue _ _ _ | WExited | WPanicked => True
  end.

(** The state of a crawl with one worker: the pages recorded since the
    start are for marked addresses, no two for the same one. *)
Definition solo_inv (old : list Storage.Page) (r : Run) : Prop :=
  exists w news,
    pool r = [w]
    /\ Storage.pages (results (crawler r)) = old ++ news
    /\ NoDup (map Storage.URL news)
    /\ Forall (fun p => isVisited (crawler r) (Storage.URL p) = true) news
    /\ solo_guard (crawler r) (map Storage.URL news) w.

End Solo.

End Solo.

(* ===================================================================== *)
(** * Properties                                                          *)
(* ===================================================================== *)

Module GoFacts.

Lemma wrap_id z : in_int z -> wrap z = z.
Proof.
  unfold in_int, min_int, max_int, wrap. intros Hz.
  rewrite Z.mod_small; lia.
Qed.


Lemma has_room_true {A} (c : chan A) :
  has_room c = true <-> (length (buf c) < cap c)%nat.
Proof. unfold has_room. apply Nat.ltb_lt. Qed.

Lemma has_room_false {A} (c : chan A) :
  has_room c = false <-> (cap c <= length (buf c))%nat.
Proof. unfold has_room. apply Nat.ltb_ge. Qed.

Lemma length_push {A} (c : chan A) a :
  length (buf (push c a)) = S (length (buf c)).
Proof. unfold push; simpl. rewrite length_app. simpl. lia. Qed.

End GoFacts.


(* ===================================================================== *)
(** ** The rate limiter                                                   *)
(* ===================================================================== *)

Module RateLimiterFacts.
Import RateLimiter GoFacts.

(** The fill loop never blocks while the remaining sends fit. *)
Lemma fill_fits (n : nat) : forall c : chan unit,
  closed c = false -> (length (buf c) + n <= cap c)%nat ->
  exists c', fill n c = Some (Ok c')
             /\ length (buf c') = (length (buf c) + n)%nat
             /\ cap c' = cap c /\ closed c' = false.
Proof.
  induction n as [|n IH]; intros c Hopen Hfit; simpl.
  - exists c. repeat split; auto; lia.
  - unfold send. rewrite Hopen.
    assert (Hroom : has_room c = true) by (apply has_room_true; lia).
    rewrite Hroom.
    destruct (IH (push c tt)) as (c' & Hf & Hl & Hc & Ho).
    + exact Hopen.
    + rewrite length_push. simpl. lia.
    + exists c'. rewrite Hf. repeat split; auto.
      rewrite Hl, length_push. lia.
Qed.

Lemma quot_second_pos (n : Z) : 1 <= n <= Second -> 1 <= Z.quot Second n <= Second.
Proof.
  unfold Second. intros Hn. rewrite Z.quot_div_nonneg by lia.
  split.
  - apply Z.div_le_lower_bound; lia.
  - apply Z.div_le_upper_bound; nia.
Qed.

Lemma quot_second_small (n : Z) : n < 0 \/ Second < n -> Z.quot Second n <= 0.
Proof.
  unfold Second. intros [Hn | Hn].
  - replace n with (- (- n)) by lia. rewrite Z.quot_opp_r by lia.
    assert (0 <= Z.quot 1000000000 (- n)) by (apply Z.quot_pos; lia). lia.
  - rewrite Z.quot_small; lia.
Qed.

Lemma quot_second_in_int (n : Z) : in_int (Z.quot Second n).
Proof.
  unfold in_int, min_int, max_int.
  destruct (Z_lt_le_dec n 0) as [Hneg|Hpos].
  - replace n with (- (- n)) by lia. rewrite Z.quot_opp_r by lia.
    assert (0 <= Z.quot Second (- n) <= Second).
    { split; [apply Z.quot_pos; unfold Second; lia|].
      apply Z.quot_le_upper_bound; unfold Second; nia. }
    unfold Second in *. lia.
  - destruct (Z.eq_dec n 0) as [->|Hn].
    + rewrite Z.quot_0_r_ext by reflexivity. lia.
    + assert (0 <= Z.quot Second n <= Second).
      { split; [apply Z.quot_pos; unfold Second; lia|].
        apply Z.quot_le_upper_bound; unfold Second; nia. }
      unfold Second in *. lia.
Qed.

(** Construction succeeds exactly on the rates from 1 to 10^9 a second
    (beyond, the ticker period [time.Second / rate] is zero). *)
Lemma NewRateLimiter_ok (rps : Z) :
  1 <= rps <= Second ->
  exists rl, NewRateLimiter rps = Some (Ok rl)
             /\ count rl = Z.to_nat rps /\ capacity rl = Z.to_nat rps
             /\ ticking rl = true /\ closed (tokens rl) = false
             /\ interval rl = Z.quot Second rps.
Proof.
  intros Hr. unfold NewRateLimiter, div.
  destruct (Z.eqb_spec rps 0) as [|_]; [lia|].
  rewrite wrap_id by apply quot_second_in_int.
  pose proof (quot_second_pos rps Hr) as Hq.
  unfold NewTicker. destruct (Z.leb_spec (Z.quot Second rps) 0) as [|_]; [lia|].
  unfold make_chan. destruct (Z.ltb_spec rps 0) as [|_]; [lia|].
  destruct (fill_fits (Z.to_nat rps) (Chan [] (Z.to_nat rps) false))
    as (c' & Hf & Hl & Hc & Ho); [reflexivity | simpl; lia |].
  rewrite Hf. eexists. split; [reflexivity|].
  unfold count, capacity; simpl. rewrite Hl, Hc. simpl. auto.
Qed.

Lemma NewRateLimiter_panics (rps : Z) :
  rps <= 0 \/ Second < rps -> exists m, NewRateLimiter rps = Some (Panic m).
Proof.
  intros Hr. unfold NewRateLimiter, div.
  destruct (Z.eqb_spec rps 0) as [|Hne]; [eauto|].
  rewrite wrap_id by apply quot_second_in_int.
  assert (Hq : Z.quot Second rps <= 0) by (apply quot_second_small; lia).
  unfold NewTicker. destruct (Z.leb_spec (Z.quot Second rps) 0); [eauto | lia].
Qed.

Lemma NewRateLimiter_inv (rps : Z) (rl : t) :
  NewRateLimiter rps = Some (Ok rl) ->
  1 <= rps <= Second
  /\ count rl = Z.to_nat rps /\ capacity rl = Z.to_nat rps
  /\ ticking rl = true /\ closed (tokens rl) = false.
Proof.
  intros H.
  destruct (Z_le_gt_dec rps 0) as [Hle|Hgt].
  { destruct (NewRateLimiter_panics rps) as [m Hm]; [lia | congruence]. }
  destruct (Z_le_gt_dec rps Second) as [Hle|Hbig].
  2:{ destruct (NewRateLimiter_panics rps) as [m Hm]; [lia | congruence]. }
  destruct (NewRateLimiter_ok rps) as (rl' & Hrl & Hc & Hk & Ht & Ho & _); [lia|].
  rewrite Hrl in H. inversion H; subst. repeat split; auto; lia.
Qed.

Lemma step_wf (ev : event) (rl rl' : t) :
  wf rl -> step ev rl = Ok rl' -> wf rl' /\ capacity rl' = capacity rl.
Proof.
  unfold wf, count, capacity. destruct rl as [iv tk [b cp cl]]; simpl.
  intros [Hle Htk] Hstep. subst tk.
  destruct ev as [|d p|]; simpl in Hstep.
  - unfold refill, has_room in Hstep; simpl in Hstep.
    destruct cl; simpl in Hstep; [discriminate|].
    destruct (Nat.ltb_spec (length b) cp); inversion Hstep; subst; simpl.
    + rewrite length_app; simpl. repeat split; auto. lia.
    + auto.
  - unfold Wait, recv in Hstep; simpl in Hstep.
    destruct b as [|a rest]; [destruct cl|]; destruct d, p;
      simpl in Hstep; inversion Hstep; subst; simpl in *;
      repeat split; auto; lia.
  - unfold Stop, close in Hstep; simpl in Hstep.
    destruct cl; [discriminate|].
    inversion Hstep; subst; simpl. auto.
Qed.

Lemma run_wf (evs : list event) : forall rl rl',
  wf rl -> run evs rl = Ok rl' -> wf rl' /\ capacity rl' = capacity rl.
Proof.
  induction evs as [|ev evs IH]; intros rl rl' Hwf Hrun; simpl in Hrun.
  - inversion Hrun; subst. auto.
  - destruct (step ev rl) as [rl1|m] eqn:Es; simpl in Hrun; [|discriminate].
    destruct (step_wf _ _ _ Hwf Es) as [Hwf1 Hc1].
    destruct (IH _ _ Hwf1 Hrun) as [Hwf' Hc']. split; [auto | congruence].
Qed.

(** A tick on a limiter whose ticker runs: one token more below
    capacity, nothing at capacity; never a panic, never a wait. *)
Lemma refill_cases (rl : t) :
  wf rl -> ticking rl = true ->
  ((count rl < capacity rl)%nat ->
     exists rl', refill rl = Ok rl' /\ count rl' = S (count rl)
                 /\ capacity rl' = capacity rl)
  /\ (count rl = capacity rl -> refill rl = Ok rl).
Proof.
  unfold wf, count, capacity. intros [Hle Htk] Ht.
  rewrite Ht in Htk. symmetry in Htk. apply negb_true_iff in Htk.
  unfold refill. rewrite Htk. split; intros Hc.
  - assert (Hr : has_room (tokens rl) = true) by (apply has_room_true; lia).
    rewrite Hr. eexists. split; [reflexivity|]. simpl.
    rewrite length_app. simpl. split; lia.
  - assert (Hr : has_room (tokens rl) = false) by (apply has_room_false; lia).
    rewrite Hr. reflexivity.
Qed.

(** C7. The bucket starts full at capacity [requestsPerSecond]; in every
    state reached by ticks, acquisitions and a shutdown the token count
    is at most the capacity, which never changes; a tick below capacity
    adds exactly one token, and a tick at capacity returns the limiter
    unchanged, with no panic and no waiting. *)
Theorem token_bucket_invariant (requestsPerSecond : Z) (rl : t) :
  NewRateLimiter requestsPerSecond = Some (Ok rl) ->
  (count rl = capacity rl /\ Z.of_nat (capacity rl) = requestsPerSecond)
  /\ forall (evs : list event) (rl' : t),
       run evs rl = Ok rl' ->
       (count rl' <= capacity rl')%nat
       /\ capacity rl' = capacity rl
       /\ (ticking rl' = true ->
           ((count rl' < capacity rl')%nat ->
              exists rl'', refill rl' = Ok rl'' /\ count rl'' = S (count rl')
                           /\ capacity rl'' = capacity rl')
           /\ (count rl' = capacity rl' -> refill rl' = Ok rl')).
Proof.
  intros Hnew.
  destruct (NewRateLimiter_inv _ _ Hnew) as (Hr & Hc & Hk & Ht & Ho).
  split; [split; [congruence | rewrite Hk; lia]|].
  intros evs rl' Hrun.
  assert (Hwf : wf rl).
  { unfold wf. rewrite Hc, Hk, Ht, Ho. auto. }
  destruct (run_wf _ _ _ Hwf Hrun) as [Hwf' Hcap].
  split; [apply Hwf'|]. split; [exact Hcap|].
  intros Htick. apply refill_cases; assumption.
Qed.

Lemma token_bucket_invariant_witness :
  exists rl, NewRateLimiter 5 = Some (Ok rl)
    /\ (count rl = capacity rl /\ Z.of_nat (capacity rl) = 5)
    /\ forall evs rl', run evs rl = Ok rl' ->
         (count rl' <= capacity rl')%nat /\ capacity rl' = capacity rl.
Proof.
  eexists. split; [vm_compute; reflexivity|].
  pose proof (token_bucket_invariant 5 _ eq_refl) as [H1 H2].
  split; [exact H1|].
  intros evs rl' Hrun. destruct (H2 evs rl' Hrun) as (Ha & Hb & _). auto.
Defined.

End RateLimiterFacts.

(* ===================================================================== *)
(** ** The results store                                                  *)
(* ===================================================================== *)

Module StorageFacts.
Import Storage GoFacts.


Lemma pages_after_snoc (r : Results) (cs : list call) :
  pages (fold_left AddPage_call cs r)
  = pages r ++ map (fun c => MkPage (c_url c) (c_title c) (c_description c)
                                    (c_links c) (c_responseTime c) (nil_error c)
                                    (match c_err c with None => "" | Some e => e end)
                                    (c_now c)) cs.
Proof.
  revert r. induction cs as [|c cs IH]; intros r; simpl.
  - now rewrite app_nil_r.
  - rewrite IH. unfold AddPage_call, AddPage; simpl.
    rewrite <- app_assoc. reflexivity.
Qed.





(** C10, as stated, fails: [totalTime] is an int64 and wraps. Two pages
    with the response times MaxInt64 ns and 1 ns give a negative
    average, where the sum of the response times in milliseconds divided
    by the number of pages is positive. *)
Lemma average_wraps_on_overflow :
  let calls := [MkCall "http://ex.test/" "" "" [] max_int None 0;
                MkCall "http://ex.test/a" "" "" [] 1 None 0] in
  let st := GetStats (after_calls calls) in
  TotalPages st = 2
  /\ AvgResponseTime st = (-4611686018427)%float
  /\ Spec.average_response_time calls = 4611686018427%float
  /\ PrimFloat.ltb (AvgResponseTime st) (Spec.average_response_time calls)
     = true.
Proof.
  intros calls st. split; [reflexivity|].
  split; [vm_compute; reflexivity|].
  split; vm_compute; reflexivity.
Qed.



End StorageFacts.

(* ===================================================================== *)
(** ** Construction, the visited set and the scope policy                 *)
(* ===================================================================== *)

Module CrawlerFacts.
Import Crawler GoFacts.

Lemma New_ok (w rate d : Z) (res : Storage.Results) :
  1 <= rate <= Second ->
  exists c, New w rate d res = Some (Ok c)
            /\ workers c = w /\ maxDepth c = d /\ results c = res
            /\ visited c = ∅
            /\ RateLimiter.wf (rateLimiter c).
Proof.
  intros Hr. unfold New.
  destruct (RateLimiterFacts.NewRateLimiter_ok rate Hr)
    as (rl & Hrl & Hc & Hk & Ht & Ho & _).
  rewrite Hrl. eexists. split; [reflexivity|]. simpl.
  assert (RateLimiter.wf rl).
  { unfold RateLimiter.wf. rewrite Hc, Hk, Ht, Ho. auto. }
  auto 10.
Qed.

(** C2, as stated, fails: a crawler with no worker and a negative depth
    bound is constructed without any error. *)
Lemma New_accepts_invalid_config :
  ~ Spec.valid_config 0 10 (-1)
  /\ exists c, New 0 10 (-1) Storage.NewResults = Some (Ok c)
               /\ workers c = 0 /\ maxDepth c = -1.
Proof.
  split.
  - unfold Spec.valid_config. lia.
  - eexists. split; [vm_compute; reflexivity|]. split; reflexivity.
Qed.

(** C2, amended. Construction panics (in the rate limiter's constructor,
    before any goroutine exists) for every rate of zero or less; the
    worker count and the depth bound are not checked: for every rate
    from 1 to 10^9 construction returns a crawler carrying them as
    given; and the queue of a crawl always has capacity 100. *)
Theorem New_rejects_only_rate (net : NetURL) (w rate d : Z) (res : Storage.Results) :
  (rate <= 0 -> exists m, New w rate d res = Some (Panic m))
  /\ (1 <= rate <= Second ->
      exists c, New w rate d res = Some (Ok c)
                /\ workers c = w /\ maxDepth c = d)
  /\ (forall c url t0, cap (jobs (Crawl_start c url t0)) = 100%nat).
Proof.
  split; [|split].
  - intros Hr. unfold New.
    destruct (RateLimiterFacts.NewRateLimiter_panics rate) as [m Hm]; [lia|].
    rewrite Hm. eauto.
  - intros Hr. destruct (New_ok w rate d res Hr) as (c & Hc & Hw & Hd & _).
    eauto.
  - intros. reflexivity.
Qed.

Lemma New_rejects_only_rate_witness :
  (exists m, New 10 0 2 Storage.NewResults = Some (Panic m))
  /\ (exists c, New 0 10 (-1) Storage.NewResults = Some (Ok c)
                /\ workers c = 0 /\ maxDepth c = -1).
Proof.
  destruct (New_rejects_only_rate PlainURL.net 10 0 2 Storage.NewResults) as (H1 & _).
  destruct (New_rejects_only_rate PlainURL.net 0 10 (-1) Storage.NewResults)
    as (_ & H2 & _).
  split; [apply H1; lia | apply H2; unfold Second; lia].
Defined.

Lemma isVisited_mark (c : Crawler) (url url' : string) :
  isVisited (markVisited c url) url' = true <-> url' = url \/ isVisited c url' = true.
Proof.
  unfold isVisited, markVisited; simpl.
  destruct (decide (url = url')) as [->|Hne].
  - rewrite lookup_insert_eq. simpl. tauto.
  - rewrite lookup_insert_ne by exact Hne. split; [tauto|].
    intros [->|H]; [congruence | exact H].
Qed.

(** C3, as stated, fails: the key stored for [/a#x] keeps the fragment,
    the normal form of the address is not in the set, and [/a#y], which
    differs only in the fragment, is claimed as well. *)
Lemma claim_keeps_fragment :
  exists c c1,
    New 2 10 1 Storage.NewResults = Some (Ok c)
    /\ claim c "http://ex.test/a#x" = (true, c1)
    /\ Spec.normalize "http://ex.test/a#x" = "http://ex.test/a"
    /\ Spec.normalize "http://ex.test/a#y" = "http://ex.test/a"
    /\ visited c1 !! "http://ex.test/a" = None
    /\ visited c1 !! "http://ex.test/a#x" = Some true
    /\ fst (claim c1 "http://ex.test/a#y") = true.
Proof.
  eexists. eexists.
  split; [vm_compute; reflexivity|].
  split; [vm_compute; reflexivity|].
  repeat split; vm_compute; reflexivity.
Qed.

(** C3, amended. The key stored by a claim is the address exactly as the
    job carries it; a claim succeeds iff that very string is not marked
    yet, and after a successful claim of [url] a claim of [url'] fails
    iff [url'] is the same string or was marked before. *)
Theorem claim_by_exact_string (c : Crawler) (url : string) :
  (fst (claim c url) = true <-> isVisited c url = false)
  /\ (fst (claim c url) = true ->
      visited (snd (claim c url)) = <[url := true]> (visited c))
  /\ (fst (claim c url) = false -> snd (claim c url) = c)
  /\ (forall url', isVisited c url = false ->
        (fst (claim (snd (claim c url)) url') = false
         <-> url' = url \/ isVisited c url' = true)).
Proof.
  unfold claim. destruct (isVisited c url) eqn:Ev; simpl.
  - repeat split; congruence.
  - split; [tauto|]. split; [reflexivity|]. split; [discriminate|].
    intros url' _. split.
    + intros H. destruct (isVisited (markVisited c url) url') eqn:E; simpl in H.
      * apply isVisited_mark. exact E.
      * discriminate.
    + intros H. apply isVisited_mark in H. rewrite H. reflexivity.
Qed.

Lemma claim_by_exact_string_witness :
  exists c, New 2 10 1 Storage.NewResults = Some (Ok c)
    /\ fst (claim c "http://ex.test/a#x") = true
    /\ fst (claim (snd (claim c "http://ex.test/a#x")) "http://ex.test/a#x") = false
    /\ fst (claim (snd (claim c "http://ex.test/a#x")) "http://ex.test/a#y") = true.
Proof.
  eexists. split; [vm_compute; reflexivity|].
  match goal with |- fst (claim ?c ?u) = true /\ _ =>
    destruct (claim_by_exact_string c u) as (H1 & _ & _ & H4) end.
  split; [apply H1; vm_compute; reflexivity|].
  split; [apply H4; [vm_compute; reflexivity | left; reflexivity]|].
  vm_compute. reflexivity.
Defined.

Section Scope.
Context {net : NetURL}.

(** What [shouldCrawl] and [resolveURL] compute. *)
Lemma shouldCrawl_spec (targetURL : string) (baseURL : Url) :
  (shouldCrawl targetURL baseURL = true
   <-> exists target, url_Parse targetURL = Some target
                      /\ Host target = Host baseURL
                      /\ (Scheme target = "http" \/ Scheme target = "https"))
  /\ (url_Parse targetURL = None -> shouldCrawl targetURL baseURL = false)
  /\ (url_Parse targetURL = None -> resolveURL baseURL targetURL = "").
Proof.
  unfold shouldCrawl, resolveURL.
  destruct (url_Parse targetURL) as [target|] eqn:Ep.
  - split; [|split; discriminate]. split.
    + intros H. apply andb_true_iff in H as [Hh Hs].
      apply orb_true_iff in Hs.
      exists target. split; [reflexivity|]. split.
      * apply String.eqb_eq. exact Hh.
      * destruct Hs as [Hs|Hs]; apply String.eqb_eq in Hs; auto.
    + intros (t & Ht & Hh & Hs). inversion Ht; subst t.
      apply andb_true_iff. split.
      * apply String.eqb_eq. exact Hh.
      * apply orb_true_iff. destruct Hs as [Hs|Hs]; [left|right];
          apply String.eqb_eq; exact Hs.
  - split; [|split; reflexivity]. split; [discriminate|].
    intros (t & Ht & _). discriminate.
Qed.

End Scope.

End CrawlerFacts.

(* ===================================================================== *)
(** ** The crawl as a transition system                                   *)
(* ===================================================================== *)

Module EngineFacts.
Import Crawler GoFacts.

Section Steps.
Context {net : NetURL}.

(** Every way a step can go, with the equations of the branch taken. *)
Ltac step_cases H :=
  unfold step, worker_step, signal, record, enqueue_select in H;
  repeat case_match; simplify_eq.

Lemma recv_some {A} (q q' : chan A) (a : A) :
  recv q = Some (Some a, q') ->
  buf q = a :: buf q' /\ cap q' = cap q /\ closed q' = closed q.
Proof.
  unfold recv. destruct (buf q) as [|x rest] eqn:Eb.
  - destruct (closed q); intros H; inversion H.
  - intros H; inversion H; subst; simpl. auto.
Qed.





Lemma run_inv (P : Run -> Prop) :
  (forall ev r r', P r -> step ev r = Some r' -> P r') ->
  forall evs r r', P r -> run evs r = Some r' -> P r'.
Proof.
  intros Hstep evs. induction evs as [|ev evs IH]; intros r r' HP Hrun;
    simpl in Hrun.
  - congruence.
  - destruct (step ev r) as [r1|] eqn:Es; [|discriminate].
    eapply IH; [eapply Hstep; eassumption | exact Hrun].
Qed.


(** Pages are appended by the fetch step of a worker and by nothing
    else, one page a step, for the job the worker holds. *)
Lemma step_pages (ev : event) (r r' : Run) :
  step ev r = Some r' ->
  Storage.pages (results (crawler r')) = Storage.pages (results (crawler r))
  \/ exists i inp job p,
       ev = Work i inp
       /\ pool r !! i = Some (WFetch job)
       /\ Storage.pages (results (crawler r'))
          = Storage.pages (results (crawler r)) ++ [p]
       /\ Storage.URL p = URL job.
Proof.
  intros Hstep. step_cases Hstep; simpl; auto.
  all: right; do 4 eexists; split; [reflexivity|]; split; [eassumption|];
    split; reflexivity.
Qed.





(** C8. The fetch step of a worker appends exactly one page, for the job
    it holds. When the fetch fails (an error of [client.Get], a status
    other than 200, or an error of the parser) the page has
    Success = false and the error's text, and the worker is back at the
    top of its loop with the run still alive; when it succeeds the page
    has Success = true and no error text. No other step appends a page. *)
Theorem fetch_records_one_page (r : Run) (i : nat) (job : Job) (inp : input) :
  crashed r = false ->
  pool r !! i = Some (WFetch job) ->
  (forall e,
      fetched inp = GetFailed e
      \/ (exists status body,
            fetched inp = GetResponse status body /\ status <> 200
            /\ is_Some (url_Parse (URL job))
            /\ e = ("status " ++ format_d status)%string)
      \/ (fetched inp = GetResponse 200 (ParseFailed e)
          /\ is_Some (url_Parse (URL job))) ->
      exists r' p,
        step (Work i inp) r = Some r'
        /\ Storage.pages (results (crawler r'))
           = Storage.pages (results (crawler r)) ++ [p]
        /\ Storage.URL p = URL job
        /\ Storage.Success p = false
        /\ Storage.Error p = e
        /\ pool r' !! i = Some WIdle
        /\ crashed r' = false
        /\ jobs r' = jobs r)
  /\ (forall info,
        fetched inp = GetResponse 200 (Parsed info) ->
        is_Some (url_Parse (URL job)) ->
        exists r' p,
          step (Work i inp) r = Some r'
          /\ Storage.pages (results (crawler r'))
             = Storage.pages (results (crawler r)) ++ [p]
          /\ Storage.URL p = URL job
          /\ Storage.Success p = true
          /\ Storage.Error p = ""
          /\ Storage.Links p = Parser.Links info
          /\ crashed r' = false)
  /\ (forall ev r',
        step ev r = Some r' ->
        Storage.pages (results (crawler r')) = Storage.pages (results (crawler r))
        \/ exists k inp' job' p,
             ev = Work k inp' /\ pool r !! k = Some (WFetch job')
             /\ Storage.pages (results (crawler r'))
                = Storage.pages (results (crawler r)) ++ [p]
             /\ Storage.URL p = URL job').
Proof.
  intros Hlive Hw.
  assert (Hi : (i < length (pool r))%nat) by (eapply lookup_lt_Some; eauto).
  assert (Hins : forall w, <[i := w]> (pool r) !! i = Some w)
    by (intros; apply list_lookup_insert_eq; exact Hi).
  split; [|split].
  - intros e Hfail. unfold step. rewrite Hlive, Hw. simpl.
    destruct Hfail as [Hg | [(status & body & Hg & Hst & [u Hu] & He)
                            | (Hg & [u Hu])]];
      rewrite Hg; try rewrite Hu.
    + do 2 eexists. split; [reflexivity|]. simpl. auto 10.
    + assert (Hne : (status =? 200) = false) by (apply Z.eqb_neq; exact Hst).
      rewrite Hne. simpl. subst e.
      do 2 eexists. split; [reflexivity|]. simpl. auto 10.
    + simpl. do 2 eexists. split; [reflexivity|]. simpl. auto 10.
  - intros info Hg [u Hu]. unfold step. rewrite Hlive, Hw. simpl.
    rewrite Hg, Hu. simpl.
    destruct (Depth job <? maxDepth (crawler r));
      do 2 eexists; (split; [reflexivity|]); simpl; auto 10.
  - intros ev r'. apply step_pages.
Qed.


Lemma shouldCrawl_true (targetURL : string) (baseURL : Url) :
  shouldCrawl targetURL baseURL = true -> same_site (Host baseURL) targetURL.
Proof.
  intros H. apply (proj1 (CrawlerFacts.shouldCrawl_spec targetURL baseURL)) in H.
  exact H.
Qed.

Lemma step_scope_inv (seed : string) (su : Url) (ev : event) (r r' : Run) :
  url_Parse seed = Some su ->
  scope_inv seed (Host su) r -> step ev r = Some r' ->
  scope_inv seed (Host su) r'.
Proof.
  unfold scope_inv. intros Hseed (Hbuf & Hpool) Hstep.
  step_cases Hstep; simpl; try (split; assumption).
  all: try match goal with
       | H : pool _ !! _ = Some _ |- _ =>
           pose proof (Forall_lookup_1 _ _ _ _ Hpool H) as Hw; simpl in Hw
       end.
  all: try match goal with
       | H : recv _ = Some (Some _, _) |- _ =>
           apply recv_some in H as (Hb & _ & _); rewrite Hb in Hbuf;
           apply Forall_cons in Hbuf as [Hj Hrest]
       end.
  all: try match goal with
       | H : close _ = Ok _ |- _ =>
           unfold close in H; case_match; simplify_eq; simpl
       end.
  all: split; try assumption;
    try (apply Forall_insert; [assumption | simpl; tauto]).
  - apply Forall_insert; [assumption|]. simpl. split; [assumption|].
    destruct Hw as [Hw | (u' & Hu' & Hh & _)]; congruence.
  - apply Forall_app. split; [assumption|].
    constructor; [|constructor]. right. simpl.
    match goal with H : negb _ && _ = true |- _ =>
      apply andb_true_iff in H as [_ Hs] end.
    destruct Hw as [_ Hh]. rewrite <- Hh. apply shouldCrawl_true. exact Hs.
Qed.

Lemma run_scope_inv (c : Crawler) (seed : string) (su : Url) (t0 : Z)
    (evs : list event) (r : Run) :
  url_Parse seed = Some su ->
  run evs (Crawl_start c seed t0) = Some r ->
  scope_inv seed (Host su) r.
Proof.
  intros Hseed Hrun.
  refine (run_inv (scope_inv seed (Host su))
            (fun ev r1 r2 => step_scope_inv seed su ev r1 r2 Hseed)
            evs _ _ _ Hrun).
  split; simpl.
  - constructor; [left; reflexivity | constructor].
  - apply Forall_replicate. exact I.
Qed.

(** C5. [shouldCrawl] is a total boolean function: it answers true iff
    the address parses, its host is the string [baseURL.Host] and its
    scheme is http or https; an address that does not parse is answered
    false, and a link that does not parse resolves to the empty string.
    In a crawl whose seed parses, every job in the queue is the seed or
    an address that parses with the seed's host and scheme http or
    https. *)
Theorem scope_policy (targetURL : string) (baseURL : Url) :
  (shouldCrawl targetURL baseURL = true
   <-> exists target, url_Parse targetURL = Some target
                      /\ Host target = Host baseURL
                      /\ (Scheme target = "http" \/ Scheme target = "https"))
  /\ (url_Parse targetURL = None -> shouldCrawl targetURL baseURL = false)
  /\ (url_Parse targetURL = None -> resolveURL baseURL targetURL = "")
  /\ (forall c seed su t0 evs r,
        url_Parse seed = Some su ->
        run evs (Crawl_start c seed t0) = Some r ->
        forall j, In j (buf (jobs r)) ->
        URL j = seed
        \/ exists u, url_Parse (URL j) = Some u /\ Host u = Host su
                     /\ (Scheme u = "http" \/ Scheme u = "https")).
Proof.
  destruct (CrawlerFacts.shouldCrawl_spec targetURL baseURL) as (H1 & H2 & H3).
  split; [exact H1|]. split; [exact H2|]. split; [exact H3|].
  intros c seed su t0 evs r Hseed Hrun j Hj.
  destruct (run_scope_inv c seed su t0 evs r Hseed Hrun) as [Hbuf _].
  rewrite Forall_forall in Hbuf. apply Hbuf. apply list_elem_of_In. exact Hj.
Qed.






Lemma monitor_loop_cancel (evs : list monitor_event) (m : monitor) :
  monitor_loop (CtxDone :: evs) m = Some 1%nat.
Proof. reflexivity. Qed.

(** As a function of what its select receives: from a counter at 0,
    three polls reading the stored size end the loop at the third and
    not before. *)
Lemma monitor_loop_three (evs : list monitor_event) (m : monitor) :
  stableCount m = 0 ->
  let n := prevVisited m in
  monitor_loop [Polled n] m = None
  /\ monitor_loop [Polled n; Polled n] m = None
  /\ monitor_loop (Polled n :: Polled n :: Polled n :: evs) m = Some 3%nat.
Proof.
  destruct m as [tk pv sc]; simpl. intros ->.
  unfold monitor_poll, stableLimit; simpl. rewrite ?Z.eqb_refl.
  change (add 0 1) with 1; simpl. rewrite ?Z.eqb_refl.
  change (add 1 1) with 2; simpl. rewrite ?Z.eqb_refl.
  change (add 2 1) with 3; simpl. auto.
Qed.

End Steps.

Import Scenario.

Lemma crawler_of_New (w d : Z) :
  New w 10 d Storage.NewResults = Some (Ok (crawler_of w d)).
Proof. reflexivity. Qed.

(** C1 fails on the code: [isVisited] and [markVisited] are two critical
    sections, so two workers holding jobs for the same address can both
    read "not visited" before either marks it. In the schedule [race]
    both workers end before [client.Get] for [http://ex.test/a], and
    both fetches are recorded. *)
Theorem duplicate_fetch_race :
  New 2 10 1 Storage.NewResults = Some (Ok (crawler_of 2 1))
  /\ (exists r,
        run (net := PlainURL.net) race
            (Crawl_start (crawler_of 2 1) "http://ex.test/" 0) = Some r
        /\ pool r = [WFetch (MkJob "http://ex.test/a" 1);
                     WFetch (MkJob "http://ex.test/a" 1)])
  /\ (exists r,
        run (net := PlainURL.net) (race ++ [Work 0 (answer []); Work 1 (answer [])])
            (Crawl_start (crawler_of 2 1) "http://ex.test/" 0) = Some r
        /\ map Storage.URL (Storage.pages (results (crawler r)))
           = ["http://ex.test/"; "http://ex.test/a"; "http://ex.test/a"]).
Proof.
  split; [reflexivity|]. split.
  - eexists. split; vm_compute; reflexivity.
  - eexists. split; vm_compute; reflexivity.
Qed.



Lemma fetch_records_one_page_witness :
  exists r,
    run (net := PlainURL.net) (take_seed 0)
        (Crawl_start (crawler_of 1 1) "http://ex.test/" 0) = Some r
    /\ exists r' p,
        step (Work 0 (status 404)) r = Some r'
        /\ Storage.pages (results (crawler r'))
           = Storage.pages (results (crawler r)) ++ [p]
        /\ Storage.URL p = "http://ex.test/"
        /\ Storage.Success p = false
        /\ Storage.Error p = "status 404"
        /\ pool r' !! 0%nat = Some WIdle
        /\ crashed r' = false
        /\ jobs r' = jobs r.
Proof.
  eexists. split; [vm_compute; reflexivity|].
  match goal with |- exists r' p, step _ ?r = _ /\ _ =>
    assert (Hlive : crashed r = false) by reflexivity;
    assert (Hw : pool r !! 0%nat = Some (WFetch (MkJob "http://ex.test/" 0)))
      by reflexivity;
    pose proof (proj1 (fetch_records_one_page (net := PlainURL.net)
                         r 0 _ (status 404) Hlive Hw)) as H
  end.
  apply (H "status 404"). right. left.
  exists 404, (ParseFailed "").
  split; [reflexivity|]. split; [lia|]. split; [|reflexivity].
  eexists. vm_compute. reflexivity.
Defined.

(** C9, as stated, fails: the queue can be at capacity and closed. When
    the monitor gives up while worker 0 is sending the links of the
    seed's page, [Crawl] closes the queue with 100 jobs in it; at the
    next in-scope link the worker's select panics instead of dropping
    the link, and the crawl is dead. *)
Lemma full_closed_queue_panics :
  exists r r',
    run (net := PlainURL.net)
        (fill_queue ++ [Monitor true false; Monitor true false;
                        Monitor true false; Monitor true false; Main 9])
        (Crawl_start (crawler_of 1 1) "http://ex.test/" 0) = Some r
    /\ length (buf (jobs r)) = 100%nat /\ cap (jobs r) = 100%nat
    /\ closed (jobs r) = true /\ ctx_done r = false /\ crashed r = false
    /\ pool r = [WEnqueue (net := PlainURL.net) (MkJob "http://ex.test/" 0)
                          (PlainURL.Mk "http" "ex.test" "/" "") ["/p100"]]
    /\ step (Work 0 idle) r = Some r'
    /\ jobs r' = jobs r
    /\ pool r' = [WPanicked] /\ crashed r' = true
    /\ forall ev, step ev r' = None.
Proof.
  eexists. eexists.
  split; [vm_compute; reflexivity|].
  split; [vm_compute; reflexivity|].
  split; [vm_compute; reflexivity|].
  split; [reflexivity|]. split; [reflexivity|]. split; [reflexivity|].
  split; [vm_compute; reflexivity|].
  split; [vm_compute; reflexivity|].
  split; [reflexivity|]. split; [reflexivity|]. split; [reflexivity|].
  intros ev. reflexivity.
Qed.


Lemma scope_policy_witness :
  let base := PlainURL.Mk "http" "ex.test" "/" "" in
  shouldCrawl (net := PlainURL.net) "http://ex.test/a" base = true
  /\ shouldCrawl (net := PlainURL.net) ":foo" base = false
  /\ resolveURL (net := PlainURL.net) base ":foo" = ""
  /\ (exists r,
        run (net := PlainURL.net) fill_queue
            (Crawl_start (crawler_of 1 1) "http://ex.test/" 0) = Some r
        /\ length (buf (jobs r)) = 100%nat
        /\ forall j, In j (buf (jobs r)) ->
             URL j = "http://ex.test/"
             \/ exists u, PlainURL.parse (URL j) = Some u
                          /\ PlainURL.host u = "ex.test"
                          /\ (PlainURL.scheme u = "http"
                              \/ PlainURL.scheme u = "https")).
Proof.
  intros base.
  destruct (scope_policy (net := PlainURL.net) "http://ex.test/a" base)
    as (Hiff & _ & _ & Hrun).
  destruct (scope_policy (net := PlainURL.net) ":foo" base)
    as (_ & Hfalse & Hempty & _).
  split.
  { apply Hiff. eexists. split; [vm_compute; reflexivity|].
    split; [reflexivity | left; reflexivity]. }
  split; [apply Hfalse; reflexivity|].
  split; [apply Hempty; reflexivity|].
  eexists. split; [vm_compute; reflexivity|].
  split; [vm_compute; reflexivity|].
  match goal with |- forall j, In j (buf (jobs ?r)) -> _ =>
    assert (Hr : run (net := PlainURL.net) fill_queue
                   (Crawl_start (crawler_of 1 1) "http://ex.test/" 0) = Some r)
      by (vm_compute; reflexivity)
  end.
  assert (Hseed : PlainURL.parse "http://ex.test/" = Some base)
    by (vm_compute; reflexivity).
  exact (Hrun (crawler_of 1 1) "http://ex.test/" base 0 fill_queue _ Hseed Hr).
Defined.


End EngineFacts.

(* ===================================================================== *)
(** ** The parser                                                         *)
(* ===================================================================== *)

Module ParserFacts.
Import Parser ParserCode.

Lemma seen_insert (seen : gmap string bool) (x y : string) :
  default false (<[x := true]> seen !! y) = true
  <-> y = x \/ default false (seen !! y) = true.
Proof.
  destruct (decide (x = y)) as [->|Hne].
  - rewrite lookup_insert_eq. simpl. tauto.
  - rewrite lookup_insert_ne by exact Hne. split; [tauto|].
    intros [->|H]; [congruence | exact H].
Qed.

Lemma loop_acc (slice : list string) : forall seen result,
  uniqueStrings_loop slice seen result
  = result ++ uniqueStrings_loop slice seen [].
Proof.
  induction slice as [|item rest IH]; intros seen result; simpl.
  - now rewrite app_nil_r.
  - destruct (default false (seen !! item)); [apply IH|].
    rewrite (IH _ (result ++ [item])), (IH _ [item]).
    now rewrite <- app_assoc.
Qed.

Lemma loop_cons_new (item : string) (rest : list string) (seen : gmap string bool) :
  default false (seen !! item) = false ->
  uniqueStrings_loop (item :: rest) seen []
  = item :: uniqueStrings_loop rest (<[item := true]> seen) [].
Proof. intros H. simpl. rewrite H. simpl. apply (loop_acc rest _ [item]). Qed.

Lemma loop_members (slice : list string) : forall seen x,
  x ∈ uniqueStrings_loop slice seen []
  <-> x ∈ slice /\ default false (seen !! x) = false.
Proof.
  induction slice as [|item rest IH]; intros seen x.
  - simpl. rewrite elem_of_nil. tauto.
  - destruct (default false (seen !! item)) eqn:Es.
    + simpl. rewrite Es, IH, elem_of_cons. split; [tauto|].
      intros [[->|Hin] Hx]; [congruence | tauto].
    + rewrite loop_cons_new by exact Es. rewrite !elem_of_cons, IH.
      destruct (decide (x = item)) as [->|Hne].
      * tauto.
      * rewrite lookup_insert_ne by congruence. tauto.
Qed.

Lemma loop_NoDup (slice : list string) : forall seen,
  NoDup (uniqueStrings_loop slice seen []).
Proof.
  induction slice as [|item rest IH]; intros seen.
  - constructor.
  - destruct (default false (seen !! item)) eqn:Es.
    + simpl. rewrite Es. apply IH.
    + rewrite loop_cons_new by exact Es. constructor; [|apply IH].
      rewrite loop_members. intros [_ H].
      rewrite lookup_insert_eq in H. discriminate.
Qed.

Lemma uniqueStrings_members (slice : list string) (x : string) :
  x ∈ uniqueStrings slice <-> x ∈ slice.
Proof.
  unfold uniqueStrings. rewrite loop_members, lookup_empty. simpl. tauto.
Qed.

(** X1. [uniqueStrings] returns a slice without duplicates that holds
    exactly the strings of its argument. *)
Theorem uniqueStrings_set (slice : list string) :
  NoDup (uniqueStrings slice)
  /\ forall x, x ∈ uniqueStrings slice <-> x ∈ slice.
Proof.
  split; [apply loop_NoDup | apply uniqueStrings_members].
Qed.

Lemma loop_skip_seen (x : string) (slice : list string) : forall seen,
  default false (seen !! x) = false ->
  uniqueStrings_loop slice (<[x := true]> seen) []
  = uniqueStrings_loop (filter (fun y => y <> x) slice) seen [].
Proof.
  induction slice as [|item rest IH]; intros seen Hx; [reflexivity|].
  destruct (decide (item = x)) as [->|Hne].
  - rewrite filter_cons_False by tauto.
    simpl. rewrite lookup_insert_eq. simpl. apply IH. exact Hx.
  - rewrite filter_cons_True by exact Hne.
    destruct (default false (seen !! item)) eqn:Es.
    + simpl. rewrite lookup_insert_ne by congruence. rewrite Es.
      apply IH. exact Hx.
    + rewrite !loop_cons_new;
        [| exact Es | rewrite lookup_insert_ne by congruence; exact Es].
      f_equal. rewrite insert_insert_ne by congruence.
      apply IH. rewrite lookup_insert_ne by exact Hne. exact Hx.
Qed.

Lemma loop_sublist (slice : list string) : forall seen,
  sublist (uniqueStrings_loop slice seen []) slice.
Proof.
  induction slice as [|item rest IH]; intros seen.
  - constructor.
  - destruct (default false (seen !! item)) eqn:Es.
    + simpl. rewrite Es. apply sublist_cons. apply IH.
    + rewrite loop_cons_new by exact Es. apply sublist_skip. apply IH.
Qed.

(** X2. [uniqueStrings] keeps the first occurrence of every string, in
    the order of the argument: the head stays in front and the rest is
    the result on the tail without the head's later copies; the result
    is a subsequence of the argument. *)
Theorem uniqueStrings_first_occurrences (x : string) (slice : list string) :
  uniqueStrings (x :: slice)
  = x :: uniqueStrings (filter (fun y => y <> x) slice)
  /\ sublist (uniqueStrings (x :: slice)) (x :: slice).
Proof.
  split; [|apply loop_sublist].
  unfold uniqueStrings. rewrite loop_cons_new by (rewrite lookup_empty; reflexivity).
  f_equal. apply loop_skip_seen. rewrite lookup_empty. reflexivity.
Qed.

Lemma loop_fixed (slice : list string) : forall seen,
  NoDup slice ->
  (forall x, x ∈ slice -> default false (seen !! x) = false) ->
  uniqueStrings_loop slice seen [] = slice.
Proof.
  induction slice as [|item rest IH]; intros seen Hnd Hseen; [reflexivity|].
  apply NoDup_cons in Hnd as [Hnotin Hnd].
  rewrite loop_cons_new by (apply Hseen; left).
  f_equal. apply IH; [exact Hnd|].
  intros x Hx. rewrite lookup_insert_ne by (intros ->; contradiction).
  apply Hseen. now right.
Qed.

(** X3. A slice without duplicates is returned as it is, so applying
    [uniqueStrings] twice gives what applying it once gives. *)
Theorem uniqueStrings_idempotent (slice : list string) :
  (NoDup slice -> uniqueStrings slice = slice)
  /\ uniqueStrings (uniqueStrings slice) = uniqueStrings slice.
Proof.
  assert (H : forall l, NoDup l -> uniqueStrings l = l).
  { intros l Hl. apply loop_fixed; [exact Hl|].
    intros x _. rewrite lookup_empty. reflexivity. }
  split; [apply H|]. apply H. apply loop_NoDup.
Qed.

End ParserFacts.

(* ===================================================================== *)
(** ** The links and the title of a parsed page                           *)
(* ===================================================================== *)

Module ParseFacts.
Import Parser ParserCode Anchors.

Lemma Node_induction (P : Node -> Prop) :
  (forall k d a cs, Forall P cs -> P (MkNode k d a cs)) ->
  forall n, P n.
Proof.
  intros Hstep.
  fix IH 1. intros [k d a cs]. apply Hstep.
  induction cs as [|c cs IHcs]; constructor; [apply IH | exact IHcs].
Qed.

Section Links.
Variable TrimSpace : string -> string.

Lemma href_scan_members (attrs : list Attribute) : forall links x,
  In x (href_scan TrimSpace attrs links)
  <-> In x links
      \/ exists attr, In attr attrs /\ Key attr = "href"
                      /\ x = TrimSpace (Val attr) /\ keeps x = true.
Proof.
  induction attrs as [|attr rest IH]; intros links x; simpl.
  - split; [tauto | intros [H|(a & [] & _)]; exact H].
  - destruct (String.eqb_spec (Key attr) "href") as [Hk|Hk].
    + destruct (keeps (TrimSpace (Val attr))) eqn:Ekeep.
      * rewrite IH, in_app_iff. simpl. split.
        -- intros [[H|[<-|[]]]|(a & Ha & H)]; [tauto | | right; exists a; tauto].
           right. exists attr. auto.
        -- intros [H|(a & [<-|Ha] & Hka & -> & Hkeep)]; [tauto | tauto |].
           right. exists a. auto.
      * rewrite IH. split.
        -- intros [H|(a & Ha & H)]; [tauto | right; exists a; tauto].
        -- intros [H|(a & [<-|Ha] & Hka & -> & Hkeep)]; [tauto | congruence |].
           right. exists a. auto.
    + rewrite IH. split.
      * intros [H|(a & Ha & H)]; [tauto | right; exists a; tauto].
      * intros [H|(a & [<-|Ha] & Hka & H)]; [tauto | contradiction |].
        right. exists a. auto.
Qed.

(** The links after the switch on one node. *)
Lemma visit_links (n : Node) (info : PageInfo) (x : string) :
  In x (Links (visit TrimSpace n info))
  <-> In x (Links info)
      \/ (node_kind n = ElementNode /\ node_Data n = "a"
          /\ exists attr, In attr (node_Attr n) /\ Key attr = "href"
                          /\ x = TrimSpace (Val attr) /\ keeps x = true).
Proof.
  unfold visit. destruct n as [k d a cs]; simpl.
  destruct k; simpl; try (split; [tauto | intros [H|(Hk & _)]; [exact H | discriminate]]).
  destruct (String.eqb_spec d "title") as [->|Ht].
  { destruct cs; simpl; (split; [tauto | intros [H|(_ & Hd & _)]; [exact H | discriminate]]). }
  destruct (String.eqb_spec d "meta") as [->|Hm].
  { destruct (meta_scan a "" "") as [name content].
    destruct (String.eqb name "description"); simpl;
      (split; [tauto | intros [H|(_ & Hd & _)]; [exact H | discriminate]]). }
  destruct (String.eqb_spec d "a") as [->|Ha]; simpl.
  - rewrite href_scan_members. tauto.
  - split; [tauto | intros [H|(_ & Hd & _)]; [exact H | contradiction]].
Qed.

Lemma traverse_links : forall (n : Node) (info : PageInfo) (x : string),
  In x (Links (traverse TrimSpace n info))
  <-> In x (Links info) \/ anchor_link TrimSpace n x.
Proof.
  intros n. induction n as [k d a cs IHcs] using Node_induction.
  intros info x. simpl.
  assert (Hfold : forall (cs' : list Node) (acc : PageInfo),
             Forall (fun c => forall info x,
                       In x (Links (traverse TrimSpace c info))
                       <-> In x (Links info) \/ anchor_link TrimSpace c x) cs' ->
             (In x (Links (fold_left (fun acc c => traverse TrimSpace c acc) cs' acc))
              <-> In x (Links acc)
                  \/ exists c, In c cs' /\ anchor_link TrimSpace c x)).
  { clear. induction cs' as [|c cs' IH]; intros acc Hall; simpl.
    - split; [tauto | intros [H|(c & [] & _)]; exact H].
    - apply Forall_cons in Hall as [Hc Hall].
      rewrite (IH _ Hall), Hc. split.
      + intros [[H|H]|(c' & Hin & H)]; [tauto | right; exists c; tauto |].
        right. exists c'. tauto.
      + intros [H|(c' & [<-|Hin] & H)]; [tauto | tauto |].
        right. exists c'. tauto. }
  rewrite (Hfold cs _ IHcs), visit_links. simpl. split.
  - intros [[H|(Hk & Hd & attr & Hin & Hkey & Hx & Hkeep)]|(c & Hin & Hc)].
    + tauto.
    + right. exists (MkNode k d a cs), attr.
      split; [constructor|]. auto 10.
    + right. destruct Hc as (m & attr & Hocc & H).
      exists m, attr. split; [|exact H].
      eapply occurs_below; eauto.
  - intros [H|(m & attr & Hocc & Hk & Hd & Hin & Hkey & Hx & Hkeep)]; [tauto|].
    inversion Hocc as [|k' d' a' cs' c Hin' Hocc']; subst.
    + left. right. simpl in *. split; [exact Hk|]. split; [exact Hd|].
      exists attr. auto.
    + right. exists c. split; [exact Hin'|]. exists m, attr. auto 10.
Qed.

Lemma keeps_spec (href : string) :
  keeps href = true
  <-> href <> "" /\ String.prefix "#" href = false
      /\ String.prefix "javascript:" href = false.
Proof.
  unfold keeps. rewrite !andb_true_iff, !negb_true_iff.
  destruct (String.eqb_spec href ""); split; intros H; try tauto;
    destruct H as [[H1 H2] H3] || destruct H as (H1 & H2 & H3);
    try discriminate; try contradiction; auto.
Qed.

(** X4. When [html.Parse] returns a document, [Parse] returns no error,
    and its links are, without duplicates, exactly the trimmed href
    values of the [a] elements of the document that are not empty and
    start neither with [#] nor with [javascript:]. The base address
    plays no part. *)
Theorem Parse_links (doc : Node) (baseURL : string) :
  exists info,
    Parse TrimSpace (inl doc) baseURL = inl info
    /\ NoDup (Links info)
    /\ (forall link, In link (Links info) <-> anchor_link TrimSpace doc link)
    /\ (forall link, In link (Links info) ->
          link <> "" /\ String.prefix "#" link = false
          /\ String.prefix "javascript:" link = false).
Proof.
  eexists. split; [reflexivity|]. simpl.
  assert (Hiff : forall link,
             In link (uniqueStrings
                        (Links (traverse TrimSpace doc (MkPageInfo "" "" []))))
             <-> anchor_link TrimSpace doc link).
  { intros link. rewrite <- list_elem_of_In.
    rewrite ParserFacts.uniqueStrings_members, list_elem_of_In.
    rewrite traverse_links. simpl. tauto. }
  split; [apply ParserFacts.loop_NoDup|]. split; [exact Hiff|].
  intros link Hin. apply Hiff in Hin.
  destruct Hin as (m & attr & _ & _ & _ & _ & _ & _ & Hkeep).
  apply keeps_spec. exact Hkeep.
Qed.

Lemma visit_title (n : Node) (info : PageInfo) :
  Title (visit TrimSpace n info) = Title info
  \/ title_text TrimSpace n (Title (visit TrimSpace n info)).
Proof.
  unfold visit. destruct n as [k d a cs]; simpl.
  destruct k; simpl; auto.
  destruct (String.eqb_spec d "title") as [->|Ht].
  { destruct cs as [|first rest]; simpl; [auto|].
    right. exists (MkNode ElementNode "title" a (first :: rest)), first, rest.
    split; [constructor|]. auto. }
  destruct (String.eqb d "meta").
  { destruct (meta_scan a "" "") as [name content].
    destruct (String.eqb name "description"); simpl; auto. }
  destruct (String.eqb d "a"); simpl; auto.
Qed.

Lemma title_text_below (k : NodeType) (d : string) (a : list Attribute)
    (cs : list Node) (c : Node) (text : string) :
  In c cs -> title_text TrimSpace c text ->
  title_text TrimSpace (MkNode k d a cs) text.
Proof.
  intros Hin (m & first & rest & Hocc & H).
  exists m, first, rest. split; [eapply occurs_below; eauto | exact H].
Qed.

Lemma traverse_title : forall (n : Node) (info : PageInfo),
  Title (traverse TrimSpace n info) = Title info
  \/ title_text TrimSpace n (Title (traverse TrimSpace n info)).
Proof.
  intros n. induction n as [k d a cs IHcs] using Node_induction.
  intros info. simpl.
  assert (Hfold : forall (cs' : list Node) (acc : PageInfo),
             Forall (fun c => forall info,
                       Title (traverse TrimSpace c info) = Title info
                       \/ title_text TrimSpace c
                            (Title (traverse TrimSpace c info))) cs' ->
             let out := fold_left (fun acc c => traverse TrimSpace c acc) cs' acc in
             Title out = Title acc
             \/ exists c, In c cs' /\ title_text TrimSpace c (Title out)).
  { clear. induction cs' as [|c cs' IH]; intros acc Hall; simpl; [auto|].
    apply Forall_cons in Hall as [Hc Hall].
    destruct (IH (traverse TrimSpace c acc) Hall) as [Heq|(c' & Hin & Ht)].
    - simpl in Heq. rewrite Heq.
      destruct (Hc acc) as [Heq'|Ht']; [auto|].
      right. exists c. split; [now left | exact Ht'].
    - right. exists c'. split; [now right | exact Ht]. }
  destruct (Hfold cs (visit TrimSpace (MkNode k d a cs) info) IHcs)
    as [Heq|(c & Hin & Ht)].
  - simpl in Heq. rewrite Heq. apply visit_title.
  - right. eapply title_text_below; eauto.
Qed.

(** X5. The title [Parse] reports is empty or the trimmed data of the
    first child of a [title] element of the document; a document with
    no such element has an empty title. *)
Theorem Parse_title (doc : Node) (baseURL : string) :
  exists info,
    Parse TrimSpace (inl doc) baseURL = inl info
    /\ (Title info = "" \/ title_text TrimSpace doc (Title info))
    /\ ((forall text, ~ title_text TrimSpace doc text) -> Title info = "").
Proof.
  eexists. split; [reflexivity|]. simpl.
  destruct (traverse_title doc (MkPageInfo "" "" [])) as [Heq|Ht].
  - simpl in Heq. rewrite Heq. auto.
  - split; [right; exact Ht|]. intros Hnone. destruct (Hnone _ Ht).
Qed.

End Links.

(** The parser on [sample_doc]: one link, the title trimmed. *)
Lemma Parse_sample :
  Parse trim_ascii (inl sample_doc) "http://ex.test/"
  = inl (MkPageInfo "Home" "" ["/a"]).
Proof. vm_compute. reflexivity. Qed.

End ParseFacts.

(* ===================================================================== *)
(** ** The results store, continued                                       *)
(* ===================================================================== *)

Module StorageMore.
Import Storage.

Lemma tally_links (ps : list Page) : forall a : tally,
  uniqueLinks (fold_left tally_page ps a)
  = uniqueLinks a ∪ list_to_set (concat (map Links ps)).
Proof.
  induction ps as [|p ps IH]; intros a; simpl.
  - now rewrite union_empty_r_L.
  - rewrite IH. simpl. rewrite list_to_set_app_L.
    now rewrite (assoc_L (∪)).
Qed.

Lemma size_list_to_set (l : list string) :
  size (list_to_set l : gset string) = length (ParserCode.uniqueStrings l).
Proof.
  unfold size, set_size. simpl.
  apply Permutation_length. apply NoDup_Permutation.
  - apply NoDup_elements.
  - apply ParserFacts.loop_NoDup.
  - intros x. rewrite elem_of_elements, elem_of_list_to_set.
    symmetry. apply ParserFacts.uniqueStrings_members.
Qed.

(** X6. [GetStats] reports as UniqueLinks the number of distinct strings
    among the links of all stored pages (failed pages included), which
    is at most the number of links stored. *)
Theorem unique_links_count (r : Results) :
  let links := concat (map Links (pages r)) in
  UniqueLinks (GetStats r) = Z.of_nat (length (ParserCode.uniqueStrings links))
  /\ UniqueLinks (GetStats r) <= Z.of_nat (length links).
Proof.
  intros links.
  assert (Heq : UniqueLinks (GetStats r)
                = Z.of_nat (length (ParserCode.uniqueStrings links))).
  { unfold GetStats.
    destruct (Z.eqb_spec (Z.of_nat (length (pages r))) 0) as [Hz|Hnz]; simpl.
    - subst links. destruct (pages r); [reflexivity | simpl in Hz; lia].
    - rewrite tally_links. simpl. rewrite union_empty_l_L.
      now rewrite size_list_to_set. }
  split; [exact Heq|]. rewrite Heq.
  apply inj_le. apply sublist_length. apply ParserFacts.loop_sublist.
Qed.

Lemma AddPage_calls_duration (cs : list call) : forall r,
  duration (fold_left AddPage_call cs r) = duration r.
Proof.
  induction cs as [|c cs IH]; intros r; simpl; [reflexivity|].
  rewrite IH. reflexivity.
Qed.

(** X7. The duration [GetStats] reports is the one last given to
    [SetDuration], whatever pages are added afterwards, and
    [SetDuration] changes neither the pages nor the other statistics. *)
Theorem duration_kept (r : Results) (d : Z) (cs : list call) :
  Duration (GetStats (fold_left AddPage_call cs (SetDuration d r))) = d
  /\ pages (fold_left AddPage_call cs (SetDuration d r))
     = pages (fold_left AddPage_call cs r)
  /\ GetStats (SetDuration d r)
     = MkStats (TotalPages (GetStats r)) (UniqueLinks (GetStats r))
               (AvgResponseTime (GetStats r)) (SuccessCount (GetStats r))
               (FailCount (GetStats r)) d.
Proof.
  split; [|split].
  - assert (H : forall r0, Duration (GetStats r0) = duration r0).
    { intros r0. unfold GetStats.
      destruct (Z.of_nat (length (pages r0)) =? 0); reflexivity. }
    rewrite H, AddPage_calls_duration. reflexivity.
  - rewrite !StorageFacts.pages_after_snoc. reflexivity.
  - unfold GetStats, SetDuration; simpl.
    destruct (Z.of_nat (length (pages r)) =? 0); reflexivity.
Qed.

End StorageMore.

(* ===================================================================== *)
(** ** The rate limiter, continued                                        *)
(* ===================================================================== *)

Module RateLimiterMore.
Import RateLimiter Sequences GoFacts.

Lemma Wait_takes (rl : t) (p : bool) :
  (0 < count rl)%nat ->
  exists rl', Wait false p rl = Some (rl', true)
              /\ count rl' = (count rl - 1)%nat
              /\ capacity rl' = capacity rl
              /\ closed (tokens rl') = closed (tokens rl)
              /\ ticking rl' = ticking rl.
Proof.
  unfold count, capacity, Wait, recv. destruct rl as [iv tk [b cp cl]]; simpl.
  intros Hpos. destruct b as [|a rest]; [simpl in Hpos; lia|].
  eexists. split; [reflexivity|]. simpl. repeat split; lia.
Qed.

Lemma Waits_drain (n : nat) : forall rl,
  (n <= count rl)%nat ->
  exists rl', Waits n rl = Some rl'
              /\ count rl' = (count rl - n)%nat
              /\ capacity rl' = capacity rl
              /\ closed (tokens rl') = closed (tokens rl)
              /\ ticking rl' = ticking rl.
Proof.
  induction n as [|n IH]; intros rl Hn; simpl.
  - exists rl. repeat split; lia.
  - destruct (Wait_takes rl false) as (rl1 & Hw & Hc & Hk & Ho & Ht); [lia|].
    rewrite Hw.
    destruct (IH rl1) as (rl' & Hws & Hc' & Hk' & Ho' & Ht'); [lia|].
    exists rl'. split; [exact Hws|]. repeat split; try congruence. lia.
Qed.

(** X8. The initial burst. On a limiter just built for
    [requestsPerSecond], that many [Wait] calls return at once, each
    with a token; the next one blocks; and after one tick of the ticker
    exactly one more returns and the following blocks again. *)
Theorem initial_burst (requestsPerSecond : Z) (rl : t) :
  NewRateLimiter requestsPerSecond = Some (Ok rl) ->
  exists rl0,
    Waits (Z.to_nat requestsPerSecond) rl = Some rl0
    /\ count rl0 = 0%nat
    /\ Waits (S (Z.to_nat requestsPerSecond)) rl = None
    /\ exists rl1 rl2,
        refill rl0 = Ok rl1
        /\ Wait false false rl1 = Some (rl2, true)
        /\ Wait false false rl2 = None.
Proof.
  intros Hnew.
  destruct (RateLimiterFacts.NewRateLimiter_inv _ _ Hnew)
    as (Hr & Hc & Hk & Ht & Ho).
  destruct (Waits_drain (Z.to_nat requestsPerSecond) rl)
    as (rl0 & Hws & Hc0 & Hk0 & Ho0 & Ht0); [lia|].
  exists rl0. split; [exact Hws|].
  assert (Hzero : count rl0 = 0%nat) by lia.
  split; [exact Hzero|].
  rewrite Ho in Ho0. rewrite Ht in Ht0.
  assert (Hblock : forall x : t,
             count x = 0%nat -> closed (tokens x) = false ->
             Wait false false x = None).
  { intros x Hx Hopen. unfold Wait, recv, count in *.
    destruct (buf (tokens x)); [|discriminate]. now rewrite Hopen. }
  split.
  { clear - Hws Hzero Ho0 Hblock.
    revert rl Hws. induction (Z.to_nat requestsPerSecond) as [|n IH];
      intros rl Hws.
    - simpl in Hws. inversion Hws; subst rl0. simpl.
      now rewrite (Hblock rl Hzero Ho0).
    - simpl in Hws. change (Waits (S (S n)) rl) with
        (match Wait false false rl with
         | Some (rl', _) => Waits (S n) rl' | None => None end).
      destruct (Wait false false rl) as [[rl' tok]|]; [|reflexivity].
      apply IH. exact Hws. }
  assert (Hroom : has_room (tokens rl0) = true).
  { apply has_room_true. unfold count, capacity in *.
    rewrite Hzero, Hk0, Hk. lia. }
  unfold refill. rewrite Ho0, Hroom.
  eexists. eexists. split; [reflexivity|].
  unfold Wait, recv, push; simpl.
  unfold count in Hzero. destruct (buf (tokens rl0)); [|discriminate].
  simpl. split; [reflexivity|]. simpl. now rewrite Ho0.
Qed.

Lemma initial_burst_witness :
  exists rl rl0,
    NewRateLimiter 3 = Some (Ok rl)
    /\ Waits 3 rl = Some rl0
    /\ count rl0 = 0%nat
    /\ Waits 4 rl = None.
Proof.
  eexists. eexists. split; [vm_compute; reflexivity|].
  match goal with |- Waits 3 ?rl = _ /\ _ =>
    destruct (initial_burst 3 rl eq_refl) as (rl0 & H1 & H2 & H3 & _)
  end.
  vm_compute in H1. inversion H1; subst rl0.
  split; [vm_compute; reflexivity|]. split; [exact H2 | exact H3].
Defined.

(** X9. [Wait] never blocks once the context is cancelled; with a live
    context it blocks exactly when the channel is open and holds no
    token; and when it returns it has taken one token or none, never
    more. *)
Theorem Wait_blocks_iff (ctx_done prefer_done : bool) (rl : t) :
  (Wait ctx_done prefer_done rl = None
   <-> ctx_done = false /\ count rl = 0%nat /\ closed (tokens rl) = false)
  /\ (forall rl' took,
        Wait ctx_done prefer_done rl = Some (rl', took) ->
        count rl' = (count rl - (if took then 1 else 0))%nat
        /\ (took = true -> (0 < count rl)%nat)
        /\ capacity rl' = capacity rl).
Proof.
  unfold Wait, recv, count, capacity.
  destruct rl as [iv tk [b cp cl]]; simpl.
  destruct b as [|a rest]; [destruct cl|]; destruct ctx_done, prefer_done;
    simpl; (split; [split; [try discriminate; auto | intros (H1 & H2 & H3);
                             try discriminate; try reflexivity] |
                    intros rl' took H; inversion H; subst; simpl;
                    repeat split; try lia; try discriminate]).
Qed.

(** No step opens a closed token channel again. *)
Lemma step_stays_closed (ev : event) (rl rl' : t) :
  closed (tokens rl) = true -> step ev rl = Ok rl' ->
  closed (tokens rl') = true.
Proof.
  destruct rl as [iv tk [b cp cl]]; simpl. intros ->.
  destruct ev as [|d p|]; simpl.
  - unfold refill; simpl. discriminate.
  - unfold Wait, recv; simpl.
    destruct b; destruct d, p; simpl; intros H; inversion H; subst; reflexivity.
  - unfold Stop, close; simpl. discriminate.
Qed.

(** On a closed token channel every schedule that ends with a tick
    handled by the refill goroutine panics, at that tick at the latest. *)
Lemma run_closed_tick (evs : list event) : forall rl,
  closed (tokens rl) = true -> is_panic (run (evs ++ [Tick]) rl) = true.
Proof.
  induction evs as [|ev evs IH]; intros rl Hcl; simpl.
  - unfold refill. rewrite Hcl. reflexivity.
  - destruct (step ev rl) as [rl'|m] eqn:Es; simpl; [|reflexivity].
    apply IH. eapply step_stays_closed; eauto.
Qed.

(** X10. After [Stop] the limiter limits nothing and is fragile: the
    tokens left stay in the buffer, [Wait] returns at once for every
    caller, with no token once the buffer is drained, a tick that the
    refill goroutine still handles panics in its select (send on the
    closed channel), in whatever state calls of [Wait] and further ticks
    have left the limiter, and a second [Stop] panics. *)
Theorem Stop_opens_the_gate (rl rl1 : t) :
  Stop rl = Ok rl1 ->
  count rl1 = count rl
  /\ closed (tokens rl1) = true
  /\ (forall d p, Wait d p rl1 <> None)
  /\ (count rl1 = 0%nat -> forall d p, Wait d p rl1 = Some (rl1, false))
  /\ is_panic (refill rl1) = true
  /\ (forall evs, is_panic (run (evs ++ [Tick]) rl1) = true)
  /\ is_panic (Stop rl1) = true.
Proof.
  unfold Stop, close. destruct rl as [iv tk [b cp cl]]; simpl.
  destruct cl; [discriminate|]. intros H. inversion H; subst rl1; clear H.
  unfold count, refill, Wait, recv; simpl.
  split; [reflexivity|]. split; [reflexivity|]. split; [|split; [|split]].
  - intros d p. destruct b; destruct d, p; simpl; discriminate.
  - intros Hb d p. destruct b; [|discriminate].
    destruct d, p; reflexivity.
  - reflexivity.
  - split; [|reflexivity]. intros evs.
    apply run_closed_tick. reflexivity.
Qed.

Lemma Stop_opens_the_gate_witness :
  exists rl rl1,
    NewRateLimiter 2 = Some (Ok rl)
    /\ Stop rl = Ok rl1
    /\ count rl1 = 2%nat
    /\ (forall d p, Wait d p rl1 <> None)
    /\ is_panic (refill rl1) = true
    /\ is_panic (Stop rl1) = true.
Proof.
  eexists. eexists. split; [vm_compute; reflexivity|].
  split; [vm_compute; reflexivity|].
  match goal with |- count ?r1 = _ /\ _ =>
    destruct (Stop_opens_the_gate
                (Mk 500000000 true (Chan [tt; tt] 2 false)) r1 eq_refl)
      as (H1 & _ & H3 & _ & H5 & _ & H7)
  end.
  split; [exact H1|]. split; [exact H3|]. split; [exact H5 | exact H7].
Defined.

End RateLimiterMore.

(* ===================================================================== *)
(** ** Runs of the crawl, continued                                       *)
(* ===================================================================== *)

Module RunFacts.
Import Crawler GoFacts RunState Sequences.

Section Runs.
Context {net : NetURL}.

Ltac run_cases H :=
  unfold step, worker_step, signal, record, enqueue_select in H;
  repeat case_match; simplify_eq.

(** A step leaves the visited set as it is or marks one address. *)
Lemma step_visited (ev : event) (r r' : Run) :
  step ev r = Some r' ->
  visited (crawler r') = visited (crawler r)
  \/ exists u, visited (crawler r') = <[u := true]> (visited (crawler r)).
Proof.
  intros Hstep. run_cases Hstep; simpl; auto.
  right. eexists. reflexivity.
Qed.

Lemma step_visited_mono (ev : event) (r r' : Run) (u : string) :
  step ev r = Some r' ->
  isVisited (crawler r) u = true -> isVisited (crawler r') u = true.
Proof.
  intros Hstep. unfold isVisited.
  destruct (step_visited ev r r' Hstep) as [->|[u0 ->]]; [auto|].
  intros Hu. destruct (decide (u0 = u)) as [->|Hne].
  - now rewrite lookup_insert_eq.
  - now rewrite lookup_insert_ne.
Qed.

Lemma step_visited_size (ev : event) (r r' : Run) :
  step ev r = Some r' ->
  (size (visited (crawler r)) <= size (visited (crawler r')))%nat.
Proof.
  intros Hstep.
  destruct (step_visited ev r r' Hstep) as [->|[u0 ->]]; [lia|].
  destruct (visited (crawler r) !! u0) as [b|] eqn:E.
  - rewrite map_size_insert_Some by eauto. lia.
  - rewrite map_size_insert_None by exact E. lia.
Qed.

Lemma marked_mono (c c' : Crawler) (w : wstate) :
  (forall u, isVisited c u = true -> isVisited c' u = true) ->
  marked c w -> marked c' w.
Proof. intros Hm. destruct w; simpl; auto. Qed.

Lemma step_marked (ev : event) (r r' : Run) :
  Forall (marked (crawler r)) (pool r) ->
  step ev r = Some r' ->
  Forall (marked (crawler r')) (pool r').
Proof.
  intros Hpool Hstep.
  pose proof (fun u => step_visited_mono ev r r' u Hstep) as Hmono.
  assert (Hold : Forall (marked (crawler r')) (pool r)).
  { eapply Forall_impl; [exact Hpool|].
    intros w. apply marked_mono. exact Hmono. }
  clear Hpool.
  run_cases Hstep; simpl in *; try exact Hold.
  all: try match goal with
       | H : pool _ !! _ = Some _ |- _ =>
           pose proof (Forall_lookup_1 _ _ _ _ Hold H) as Hw; simpl in Hw
       end.
  all: apply Forall_insert; [exact Hold | simpl; auto].
  apply CrawlerFacts.isVisited_mark. now left.
Qed.

(** X11. An address is marked before its fetch begins. In every state of
    a crawl: what was visited stays visited and the visited set never
    shrinks; every worker waiting for a token, fetching or enqueuing
    holds a job whose address is marked; and every page recorded since
    the start is for a marked address. *)
Theorem visited_before_fetch (c : Crawler) (url : string) (t0 : Z)
    (evs : list event) (r : Run) :
  run evs (Crawl_start c url t0) = Some r ->
  (forall u, isVisited c u = true -> isVisited (crawler r) u = true)
  /\ (size (visited c) <= size (visited (crawler r)))%nat
  /\ Forall (marked (crawler r)) (pool r)
  /\ exists news,
       Storage.pages (results (crawler r)) = Storage.pages (results c) ++ news
       /\ Forall (fun p => isVisited (crawler r) (Storage.URL p) = true) news.
Proof.
  apply (EngineFacts.run_inv
           (fun r =>
              (forall u, isVisited c u = true -> isVisited (crawler r) u = true)
              /\ (size (visited c) <= size (visited (crawler r)))%nat
              /\ Forall (marked (crawler r)) (pool r)
              /\ exists news,
                   Storage.pages (results (crawler r))
                   = Storage.pages (results c) ++ news
                   /\ Forall (fun p => isVisited (crawler r) (Storage.URL p) = true)
                             news)).
  - intros ev r1 r2 (Hkeep & Hsize & Hpool & news & Hpages & Hnews) Hstep.
    pose proof (fun u => step_visited_mono ev r1 r2 u Hstep) as Hmono.
    split; [intros u Hu; apply Hmono, Hkeep, Hu|].
    split; [pose proof (step_visited_size ev r1 r2 Hstep); lia|].
    split; [eapply step_marked; eauto|].
    assert (Hnews' : Forall (fun p => isVisited (crawler r2) (Storage.URL p) = true)
                            news).
    { eapply Forall_impl; [exact Hnews|]. intros p. apply Hmono. }
    destruct (EngineFacts.step_pages ev r1 r2 Hstep)
      as [Hsame | (i & inp & job & p & _ & Hw & Happ & Hurl)].
    + exists news. split; [congruence | exact Hnews'].
    + exists (news ++ [p]). split.
      * rewrite Happ, Hpages. now rewrite app_assoc.
      * apply Forall_app. split; [exact Hnews'|].
        constructor; [|constructor]. rewrite Hurl. apply Hmono.
        exact (Forall_lookup_1 _ _ _ _ Hpool Hw).
  - simpl. split; [auto|]. split; [lia|]. split.
    + apply Forall_replicate. exact I.
    + exists []. split; [now rewrite app_nil_r | constructor].
Qed.

Lemma in_flight_insert (ws : list wstate) : forall (i : nat) (w w' : wstate),
  ws !! i = Some w ->
  (in_flight (<[i := w']> ws) + fetching w = in_flight ws + fetching w')%nat.
Proof.
  induction ws as [|x ws IH]; intros i w w' Hi; [discriminate|].
  destruct i as [|i]; simpl in *.
  - inversion Hi; subst. lia.
  - specialize (IH i w w' Hi). lia.
Qed.

Lemma in_flight_idle (n : nat) : in_flight (replicate n WIdle) = 0%nat.
Proof. induction n as [|n IH]; simpl; [reflexivity | exact IH]. Qed.

Lemma Wait_live (p : bool) (rl rl' : RateLimiter.t) (took : bool) :
  closed (RateLimiter.tokens rl) = false ->
  RateLimiter.Wait false p rl = Some (rl', took) ->
  RateLimiter.count rl = S (RateLimiter.count rl')
  /\ closed (RateLimiter.tokens rl') = false
  /\ RateLimiter.ticking rl' = RateLimiter.ticking rl.
Proof.
  unfold RateLimiter.Wait, recv, RateLimiter.count.
  destruct rl as [iv tk [b cp cl]]; simpl. intros ->.
  destruct b as [|a rest]; [discriminate|].
  intros H. inversion H; subst; simpl. auto.
Qed.

Lemma refill_live (rl rl' : RateLimiter.t) :
  RateLimiter.refill rl = Ok rl' ->
  (RateLimiter.count rl' <= S (RateLimiter.count rl))%nat
  /\ closed (RateLimiter.tokens rl') = closed (RateLimiter.tokens rl)
  /\ RateLimiter.ticking rl' = RateLimiter.ticking rl.
Proof.
  unfold RateLimiter.refill, RateLimiter.count.
  destruct rl as [iv tk [b cp cl]]; simpl.
  destruct cl; [discriminate|].
  destruct (has_room _); intros H; inversion H; subst; simpl; auto.
  rewrite length_app. simpl. split; [lia | auto].
Qed.

Lemma refill_never_panics (rl : RateLimiter.t) (m : string) :
  RateLimiter.ticking rl = true -> closed (RateLimiter.tokens rl) = false ->
  RateLimiter.refill rl <> Panic m.
Proof.
  unfold RateLimiter.refill. intros _ ->.
  destruct (has_room _); discriminate.
Qed.

(** One step without cancellation: the context stays live, the limiter
    stays in service, and fetches start only against tokens. *)
Lemma step_rate (ev : event) (r r' : Run) :
  ctx_done r = false -> limiter_live (crawler r) -> is_cancel ev = false ->
  step ev r = Some r' ->
  ctx_done r' = false
  /\ limiter_live (crawler r')
  /\ (started r' + RateLimiter.count (rateLimiter (crawler r'))
      <= started r + RateLimiter.count (rateLimiter (crawler r))
         + (if is_refill ev then 1 else 0))%nat.
Proof.
  unfold limiter_live, started. intros Hctx [Htick Hopen] Hcancel Hstep.
  run_cases Hstep; simpl in *; try discriminate.
  all: try match goal with
       | H : RateLimiter.Wait _ _ _ = Some _ |- _ =>
           rewrite Hctx in H; apply (Wait_live _ _ _ _ Hopen) in H;
           destruct H as (Hcount & Hopen' & Htick')
       end.
  all: try match goal with
       | H : RateLimiter.refill _ = Ok _ |- _ =>
           apply refill_live in H; destruct H as (Hcount & Hopen' & Htick')
       end.
  all: try match goal with
       | H : RateLimiter.refill _ = Panic _ |- _ =>
           destruct (refill_never_panics _ _ Htick Hopen H)
       end.
  all: try match goal with
       | H : pool _ !! ?i = Some ?w |- context [in_flight (<[?i := ?w']> _)] =>
           pose proof (in_flight_insert _ i w w' H) as Hfl; simpl in Hfl
       end.
  all: rewrite ?length_app; simpl.
  all: split; [assumption|]; split; [split; congruence|]; lia.
Qed.

(** X12. Without cancellation, fetches start only against tokens: in
    every state of a crawl whose limiter is in service, the pages
    recorded, the fetches in flight and the tokens left in the bucket
    together are at most the pages and tokens at the start plus the
    ticks of the limiter's ticker. *)
Theorem fetches_bounded_by_tokens (c : Crawler) (url : string) (t0 : Z)
    (evs : list event) (r : Run) :
  limiter_live c ->
  Forall (fun ev => is_cancel ev = false) evs ->
  run evs (Crawl_start c url t0) = Some r ->
  (length (Storage.pages (results (crawler r))) + in_flight (pool r)
   + RateLimiter.count (rateLimiter (crawler r))
   <= length (Storage.pages (results c)) + RateLimiter.count (rateLimiter c)
      + ticks evs)%nat.
Proof.
  intros Hlive Hevs Hrun.
  assert (Hgen : forall evs r0 r1,
             ctx_done r0 = false -> limiter_live (crawler r0) ->
             Forall (fun ev => is_cancel ev = false) evs ->
             run evs r0 = Some r1 ->
             (started r1 + RateLimiter.count (rateLimiter (crawler r1))
              <= started r0 + RateLimiter.count (rateLimiter (crawler r0))
                 + ticks evs)%nat).
  { clear. induction evs as [|ev evs IH]; intros r0 r1 Hctx Hlive Hall Hrun;
      simpl in Hrun.
    - inversion Hrun; subst. unfold ticks; simpl. lia.
    - apply Forall_cons in Hall as [Hev Hall].
      destruct (step ev r0) as [r'|] eqn:Es; [|discriminate].
      destruct (step_rate ev r0 r' Hctx Hlive Hev Es) as (Hctx' & Hlive' & Hle).
      specialize (IH r' r1 Hctx' Hlive' Hall Hrun).
      unfold ticks in *. simpl. destruct (is_refill ev); simpl in *; lia. }
  specialize (Hgen evs (Crawl_start c url t0) r eq_refl Hlive Hevs Hrun).
  unfold started in Hgen. simpl in Hgen. rewrite in_flight_idle in Hgen. lia.
Qed.

Lemma Wait_keeps (d p : bool) (rl rl' : RateLimiter.t) (took : bool) :
  RateLimiter.Wait d p rl = Some (rl', took) ->
  closed (RateLimiter.tokens rl') = closed (RateLimiter.tokens rl)
  /\ RateLimiter.ticking rl' = RateLimiter.ticking rl.
Proof.
  unfold RateLimiter.Wait, recv.
  destruct rl as [iv tk [b cp cl]]; simpl.
  destruct b as [|a rest]; [destruct cl|]; destruct d, p; simpl;
    intros H; inversion H; subst; simpl; auto.
Qed.

Lemma close_ok {A} (q q' : chan A) :
  close q = Ok q' -> closed q = false /\ closed q' = true /\ buf q' = buf q.
Proof.
  unfold close. destruct (closed q) eqn:E; [discriminate|].
  intros H. inversion H; subst; simpl. auto.
Qed.

Lemma close_panics {A} (q : chan A) (m : string) :
  close q = Panic m -> closed q = true.
Proof. unfold close. destruct (closed q); [reflexivity | discriminate]. Qed.

(** A worker's step leaves the queue's closed flag and [Crawl] where
    they are; it crashes the run only by a send on the closed queue. *)
Lemma worker_step_phase (i : nat) (inp : input) (w : wstate) (r r' : Run) :
  crashed r = false ->
  pool r !! i = Some w ->
  worker_step i inp w r = Some r' ->
  closed (jobs r') = closed (jobs r)
  /\ main r' = main r
  /\ (crashed r' = false
      \/ (closed (jobs r) = true /\ pool r' !! i = Some WPanicked)).
Proof.
  intros Hlive Hw Hstep.
  assert (Hi : (i < length (pool r))%nat) by (eapply lookup_lt_Some; eauto).
  unfold worker_step, record, enqueue_select in Hstep.
  repeat case_match; simplify_eq; simpl.
  all: try match goal with
       | H : recv _ = Some (Some _, _) |- _ =>
           apply EngineFacts.recv_some in H as (_ & _ & Hcl); rewrite Hcl
       end.
  all: try (split; [congruence|]; split; [reflexivity|]; left; congruence).
  split; [congruence|]. split; [reflexivity|]. right.
  split; [congruence | apply list_lookup_insert_eq; exact Hi].
Qed.

(** A worker's step does not touch the monitor. *)
Lemma worker_step_mon (i : nat) (inp : input) (w : wstate) (r r' : Run) :
  worker_step i inp w r = Some r' -> mon r' = mon r.
Proof.
  intros Hstep. unfold worker_step, record, enqueue_select in Hstep.
  repeat case_match; simplify_eq; reflexivity.
Qed.

(** The rendezvous holds in every state, whatever the limiter does. *)
Lemma step_handshake (ev : event) (r r' : Run) :
  handshake r -> step ev r = Some r' -> handshake r'.
Proof.
  unfold handshake, draining. intros [Hm Hq] Hstep.
  unfold step in Hstep. destruct (crashed r) eqn:Hlive; [discriminate|].
  destruct ev as [i inp| |tick pick| |t].
  - destruct (pool r !! i) as [w|] eqn:Hw; [|discriminate].
    destruct (worker_step_phase i inp w r r' Hlive Hw Hstep) as (Hcl & Hmain & _).
    rewrite (worker_step_mon _ _ _ _ _ Hstep), Hcl, Hmain. auto.
  - destruct (RateLimiter.refill _); inversion Hstep; subst r'; simpl; auto.
  - destruct (mon r) as [m|] eqn:Em; [|discriminate].
    assert (Hwait : main r = MainWaiting) by (apply Hm; eauto).
    assert (Hopen : closed (jobs r) <> true).
    { intros Hc. apply Hq in Hc. destruct Hc; congruence. }
    assert (Hsig : forall r1, signal r = Some r1 ->
               ((main r1 = MainWaiting <-> exists m1, mon r1 = MRunning m1)
                /\ (closed (jobs r1) = true
                    <-> main r1 = MainJoining \/ main r1 = MainStopped))).
    { unfold signal. rewrite Hwait. intros r1 H1. inversion H1; subst r1; simpl.
      split; split; try discriminate.
      - intros [m1 H]; discriminate.
      - intros Hc; contradiction.
      - intros [?|?]; discriminate. }
    destruct (ctx_done r && (pick || negb tick)); [apply Hsig; exact Hstep|].
    destruct tick; [|discriminate].
    destruct (monitor_poll _ m) as [m' fire].
    destruct fire; [apply Hsig; exact Hstep|].
    inversion Hstep; subst r'; simpl. split; [|exact Hq].
    split; [eauto | intros _; exact Hwait].
  - inversion Hstep; subst r'; simpl. auto.
  - assert (Hnomon : forall m, mon r = MRunning m -> main r = MainWaiting)
      by (intros m H; apply Hm; eauto).
    destruct (main r) eqn:Em; try discriminate.
    + destruct (close (jobs r)) as [q'|msg] eqn:Ec.
      * inversion Hstep; subst r'; simpl.
        apply close_ok in Ec as (_ & Hc1 & _).
        split; split; try discriminate; auto.
        intros [m H]. specialize (Hnomon m H). discriminate.
      * inversion Hstep; subst r'; simpl. rewrite Em. auto.
    + destruct (forallb exited (pool r)); [|discriminate].
      inversion Hstep; subst r'; simpl.
      split; split; try discriminate; auto.
      * intros [m H]. specialize (Hnomon m H). discriminate.
      * intros _. apply Hq. auto.
Qed.

Lemma run_handshake (c : Crawler) (url : string) (t0 : Z)
    (evs : list event) (r : Run) :
  run evs (Crawl_start c url t0) = Some r -> handshake r.
Proof.
  apply (EngineFacts.run_inv handshake step_handshake).
  unfold handshake, draining. simpl.
  split; split; try discriminate; eauto.
  intros [?|?]; discriminate.
Qed.

(** What a step keeps of the phases of a run. *)
Lemma step_phase (ev : event) (r r' : Run) :
  limiter_live (crawler r) ->
  (closed (jobs r) = true <-> draining r) ->
  step ev r = Some r' ->
  limiter_live (crawler r')
  /\ (closed (jobs r') = true <-> draining r')
  /\ (crashed r' = true ->
      closed (jobs r') = true /\ exists i, pool r' !! i = Some WPanicked).
Proof.
  unfold limiter_live, draining. intros [Htick Hopen] Hphase Hstep.
  unfold step in Hstep. destruct (crashed r) eqn:Hlive; [discriminate|].
  destruct ev as [i inp| |tick pick| |t].
  - destruct (pool r !! i) as [w|] eqn:Hw; [|discriminate].
    destruct (worker_step_phase i inp w r r' Hlive Hw Hstep)
      as (Hcl & Hmain & Hcrash).
    rewrite Hcl, Hmain. split; [|split; [exact Hphase|]].
    + unfold worker_step, record, enqueue_select in Hstep.
      repeat case_match; simplify_eq; simpl; auto.
      match goal with H : RateLimiter.Wait _ _ _ = Some _ |- _ =>
        apply Wait_keeps in H; destruct H as (Ho & Ht) end.
      split; congruence.
    + intros Hc. destruct Hcrash as [Hno|[Hclosed Hp]]; [congruence|].
      split; [exact Hclosed | exists i; exact Hp].
  - destruct (RateLimiter.refill (rateLimiter (crawler r))) as [rl'|m] eqn:Er.
    + inversion Hstep; subst r'; simpl.
      apply refill_live in Er as (_ & Ho & Ht).
      split; [split; congruence|]. split; [exact Hphase | congruence].
    + destruct (refill_never_panics _ _ Htick Hopen Er).
  - assert (Hsig : forall r1, signal r = Some r1 ->
               crawler r1 = crawler r /\ jobs r1 = jobs r
               /\ crashed r1 = crashed r
               /\ main r = MainWaiting /\ main r1 = MainSignalled).
    { unfold signal. intros r1 H1. destruct (main r) eqn:Em; simplify_eq.
      simpl. auto. }
    assert (Hdone : forall r1, signal r = Some r1 ->
               (RateLimiter.ticking (rateLimiter (crawler r1)) = true
                /\ closed (RateLimiter.tokens (rateLimiter (crawler r1))) = false)
               /\ (closed (jobs r1) = true
                   <-> main r1 = MainJoining \/ main r1 = MainStopped)
               /\ (crashed r1 = true ->
                   closed (jobs r1) = true
                   /\ exists i, pool r1 !! i = Some WPanicked)).
    { intros r1 H1. destruct (Hsig r1 H1) as (Hc & Hj & Hcr & Hm & Hm1).
      rewrite Hc, Hj, Hcr, Hm1. rewrite Hm in Hphase.
      split; [auto|]. split; [|congruence].
      split; [intros H; apply Hphase in H; destruct H; congruence
             | intros [?|?]; congruence]. }
    destruct (mon r) as [m|]; [|discriminate].
    destruct (ctx_done r && (pick || negb tick)); [apply Hdone; exact Hstep|].
    destruct tick; [|discriminate].
    destruct (monitor_poll _ m) as [m' fire].
    destruct fire; [apply Hdone; exact Hstep|].
    inversion Hstep; subst r'; simpl.
    split; [auto|]. split; [exact Hphase | congruence].
  - inversion Hstep; subst r'; simpl.
    split; [auto|]. split; [exact Hphase | congruence].
  - destruct (main r) eqn:Em; try discriminate.
    + destruct (close (jobs r)) as [q'|m] eqn:Ec.
      * inversion Hstep; subst r'; simpl.
        apply close_ok in Ec as (_ & Hc1 & _).
        split; [auto|]. split; [|congruence]. split; [auto|intros _; exact Hc1].
      * apply close_panics in Ec. apply Hphase in Ec. destruct Ec; congruence.
    + destruct (forallb exited (pool r)); [|discriminate].
      inversion Hstep; subst r'; simpl.
      split; [auto|]. split; [|congruence].
      split; [auto | intros _; apply Hphase; auto].
Qed.

(** X13. The only crash of a crawl is a worker's send on the closed
    queue. In every state of a crawl whose limiter is in service: the
    queue is closed exactly from [close(jobs)] on, so [Crawl] never
    closes it twice and the limiter never panics; a crashed run has a
    closed queue and a worker stopped in its send; and no run crashes
    before [Crawl] has closed the queue. *)
Theorem crash_only_by_late_send (c : Crawler) (url : string) (t0 : Z)
    (evs : list event) (r : Run) :
  limiter_live c ->
  run evs (Crawl_start c url t0) = Some r ->
  (closed (jobs r) = true <-> main r = MainJoining \/ main r = MainStopped)
  /\ (crashed r = true ->
      closed (jobs r) = true /\ exists i, pool r !! i = Some WPanicked)
  /\ (main r = MainWaiting \/ main r = MainSignalled -> crashed r = false).
Proof.
  intros Hlive Hrun.
  assert (Hinv : limiter_live (crawler r)
                 /\ (closed (jobs r) = true <-> draining r)
                 /\ (crashed r = true ->
                     closed (jobs r) = true
                     /\ exists i, pool r !! i = Some WPanicked)).
  { revert Hrun.
    apply (EngineFacts.run_inv
             (fun r => limiter_live (crawler r)
                       /\ (closed (jobs r) = true <-> draining r)
                       /\ (crashed r = true ->
                           closed (jobs r) = true
                           /\ exists i, pool r !! i = Some WPanicked))).
    - intros ev r1 r2 (Hl & Hp & _) Hstep. eapply step_phase; eauto.
    - simpl. split; [exact Hlive|]. unfold draining; simpl.
      split; [|discriminate].
      split; [discriminate | intros [?|?]; discriminate]. }
  destruct Hinv as (_ & Hphase & Hcrash). unfold draining in Hphase.
  split; [exact Hphase|]. split; [exact Hcrash|].
  intros Hm. destruct (crashed r) eqn:Ecr; [|reflexivity].
  destruct (Hcrash eq_refl) as [Hcl _]. apply Hphase in Hcl.
  destruct Hm, Hcl; congruence.
Qed.

(** X14. A link found too late crashes the crawl. When the queue has
    been closed and a worker still in its link loop reaches an in-scope
    link (the context live, or the runtime picking the send), its send
    panics: the run is crashed, the worker stopped, and no goroutine
    takes another step. *)
Theorem send_on_closed_queue_panics (r : Run) (i : nat) (job : Job)
    (baseURL : Url) (link : string) (rest : list string) (inp : input) :
  crashed r = false ->
  pool r !! i = Some (WEnqueue job baseURL (link :: rest)) ->
  closed (jobs r) = true ->
  ctx_done r = false \/ prefer_done inp = false ->
  resolveURL baseURL link <> "" ->
  shouldCrawl (resolveURL baseURL link) baseURL = true ->
  exists r',
    step (Work i inp) r = Some r'
    /\ crashed r' = true
    /\ pool r' !! i = Some WPanicked
    /\ jobs r' = jobs r
    /\ forall ev, step ev r' = None.
Proof.
  intros Hlive Hw Hclosed Hpick Hne Hscope.
  assert (Hi : (i < length (pool r))%nat) by (eapply lookup_lt_Some; eauto).
  unfold step. rewrite Hlive, Hw. simpl.
  assert (Hnz : String.eqb (resolveURL baseURL link) "" = false)
    by (apply String.eqb_neq; exact Hne).
  rewrite Hnz, Hscope. simpl. unfold enqueue_select. rewrite Hclosed. simpl.
  assert (Hsel : ctx_done r && (prefer_done inp || false) = false)
    by (destruct Hpick as [-> | ->]; [reflexivity | apply andb_false_r]).
  rewrite Hsel. eexists. split; [reflexivity|]. simpl.
  split; [reflexivity|]. split; [apply list_lookup_insert_eq; exact Hi|].
  split; [reflexivity|]. intros ev. reflexivity.
Qed.

Lemma step_without_workers (ev : event) (r r' : Run) :
  pool r = [] -> step ev r = Some r' ->
  pool r' = []
  /\ Storage.pages (results (crawler r')) = Storage.pages (results (crawler r))
  /\ visited (crawler r') = visited (crawler r).
Proof.
  intros Hpool Hstep.
  destruct ev as [i inp| |tick pick| |t].
  - unfold step in Hstep. rewrite Hpool in Hstep.
    destruct (crashed r); discriminate.
  - run_cases Hstep; simpl; auto.
  - run_cases Hstep; simpl; auto.
  - run_cases Hstep; simpl; auto.
  - run_cases Hstep; simpl; auto.
Qed.

(** X15. A crawler with a worker count of zero or less fetches nothing:
    no state of its crawl has a worker, a new page or a new visited
    address; and, started with an empty visited set, the crawl returns
    after three polls of the monitor with the queue closed and the seed
    still in it, the duration recorded. *)
Theorem no_workers_no_fetch (c : Crawler) (url : string) (t0 t1 t2 : Z) :
  workers c <= 0 ->
  (forall evs r,
      run evs (Crawl_start c url t0) = Some r ->
      pool r = []
      /\ Storage.pages (results (crawler r)) = Storage.pages (results c)
      /\ visited (crawler r) = visited c)
  /\ (visited c = ∅ ->
      exists r,
        run [Monitor true false; Monitor true false; Monitor true false;
             Main t1; Main t2] (Crawl_start c url t0) = Some r
        /\ main r = MainStopped
        /\ buf (jobs r) = [MkJob url 0]
        /\ closed (jobs r) = true
        /\ Storage.duration (results (crawler r)) = add t2 (- t0)).
Proof.
  intros Hw.
  assert (Hnone : Z.to_nat (workers c) = 0%nat) by lia.
  split.
  - intros evs r.
    apply (EngineFacts.run_inv
             (fun r => pool r = []
                       /\ Storage.pages (results (crawler r))
                          = Storage.pages (results c)
                       /\ visited (crawler r) = visited c)).
    + intros ev r1 r2 (Hp & Hpg & Hv) Hstep.
      destruct (step_without_workers ev r1 r2 Hp Hstep) as (Hp' & Hpg' & Hv').
      split; [exact Hp'|]. split; congruence.
    + simpl. rewrite Hnone. auto.
  - intros Hvis. unfold Crawl_start. rewrite Hnone.
    destruct c as [w md rl rs vs ct st]; simpl in *. subst vs.
    unfold run, step; simpl. unfold monitor_poll, stableLimit; simpl.
    rewrite map_size_empty. simpl.
    change (add 0 1) with 1; simpl.
    change (add 1 1) with 2; simpl.
    change (add 2 1) with 3; simpl.
    eexists. split; [reflexivity|]. simpl. auto.
Qed.





End Runs.

Lemma claims_loop (urls : list string) : forall c,
  fst (claims urls c) = ParserCode.uniqueStrings_loop urls (visited c) [].
Proof.
  induction urls as [|url rest IH]; intros c; [reflexivity|].
  simpl. unfold claim.
  change (default false (visited c !! url)) with (isVisited c url).
  destruct (isVisited c url) eqn:Ev.
  - specialize (IH c). destruct (claims rest c) as [won c'']. exact IH.
  - specialize (IH (markVisited c url)).
    destruct (claims rest (markVisited c url)) as [won c'']. simpl in *.
    rewrite IH. symmetry. apply (ParserFacts.loop_acc rest _ [url]).
Qed.

Lemma claims_mark (urls : list string) : forall c u,
  isVisited (snd (claims urls c)) u = true
  <-> In u urls \/ isVisited c u = true.
Proof.
  induction urls as [|url rest IH]; intros c u; simpl; [tauto|].
  unfold claim. destruct (isVisited c url) eqn:Ev.
  - specialize (IH c u). destruct (claims rest c) as [won c'']. simpl in *.
    rewrite IH. split; [tauto|]. intros [[<-|H]|H]; auto.
  - specialize (IH (markVisited c url) u).
    destruct (claims rest (markVisited c url)) as [won c'']. simpl in *.
    rewrite IH, CrawlerFacts.isVisited_mark. split.
    + intros [H|[->|H]]; auto.
    + intros [[<-|H]|H]; auto.
Qed.

Lemma only_member (l : list string) (u : string) :
  NoDup l -> (forall x, x ∈ l <-> x = u) -> l = [u].
Proof.
  intros Hnd Hmem. destruct l as [|a l].
  - assert (H : u ∈ []) by (apply Hmem; reflexivity). inversion H.
  - assert (a = u) by (apply Hmem; left). subst a.
    destruct l as [|b l]; [reflexivity|].
    assert (b = u) by (apply Hmem; right; left). subst b.
    apply NoDup_cons in Hnd as [Hnotin _]. destruct Hnotin. left.
Qed.

(** X17. Claims that do not overlap deduplicate exactly. When the
    addresses of a list are claimed one after the other, the claims that
    succeed are, once each and in order, the addresses not marked
    before; afterwards every address of the list is marked; and of any
    number of claims of one unmarked address exactly the first
    succeeds. *)
Theorem sequential_claims (urls : list string) (c : Crawler) :
  NoDup (fst (claims urls c))
  /\ (forall u, u ∈ fst (claims urls c) <-> u ∈ urls /\ isVisited c u = false)
  /\ (forall u, In u urls -> isVisited (snd (claims urls c)) u = true)
  /\ (forall u n, isVisited c u = false ->
        fst (claims (repeat u (S n)) c) = [u]).
Proof.
  assert (Hmem : forall l u,
             u ∈ fst (claims l c) <-> u ∈ l /\ isVisited c u = false).
  { intros l u. rewrite claims_loop. apply ParserFacts.loop_members. }
  assert (Hnd : forall l, NoDup (fst (claims l c))).
  { intros l. rewrite claims_loop. apply ParserFacts.loop_NoDup. }
  split; [apply Hnd|]. split; [apply Hmem|]. split.
  - intros u Hin. apply claims_mark. now left.
  - intros u n Hu. apply only_member; [apply Hnd|].
    intros x. rewrite Hmem. split.
    + intros [Hin _]. apply list_elem_of_In, repeat_spec in Hin. exact Hin.
    + intros ->. split; [left | exact Hu].
Qed.

Import Scenario.

Lemma visited_before_fetch_witness :
  exists r,
    run (net := PlainURL.net) (race ++ [Work 0 (answer [])])
        (Crawl_start (crawler_of 2 1) "http://ex.test/" 0) = Some r
    /\ Forall (marked (crawler r)) (pool r)
    /\ exists news,
         Storage.pages (results (crawler r)) = [] ++ news
         /\ Forall (fun p => isVisited (crawler r) (Storage.URL p) = true) news.
Proof.
  eexists. split; [vm_compute; reflexivity|].
  match goal with |- Forall _ (pool ?r) /\ _ =>
    assert (Hrun : run (net := PlainURL.net) (race ++ [Work 0 (answer [])])
                     (Crawl_start (crawler_of 2 1) "http://ex.test/" 0) = Some r)
      by (vm_compute; reflexivity)
  end.
  destruct (visited_before_fetch (net := PlainURL.net) _ _ _ _ _ Hrun)
    as (_ & _ & Hm & Hn).
  split; [exact Hm | exact Hn].
Defined.

Lemma fetches_bounded_by_tokens_witness :
  exists r,
    run (net := PlainURL.net) (race ++ [Refill; Work 0 (answer [])])
        (Crawl_start (crawler_of 2 1) "http://ex.test/" 0) = Some r
    /\ (length (Storage.pages (results (crawler r))) + in_flight (pool r)
        + RateLimiter.count (rateLimiter (crawler r))
        <= 0 + 10 + 1)%nat
    /\ length (Storage.pages (results (crawler r))) = 2%nat
    /\ in_flight (pool r) = 1%nat.
Proof.
  eexists. split; [vm_compute; reflexivity|].
  match goal with |- (_ + in_flight (pool ?r) + _ <= _)%nat /\ _ =>
    assert (Hrun : run (net := PlainURL.net) (race ++ [Refill; Work 0 (answer [])])
                     (Crawl_start (crawler_of 2 1) "http://ex.test/" 0) = Some r)
      by (vm_compute; reflexivity)
  end.
  assert (Hlive : limiter_live (crawler_of 2 1)) by (split; reflexivity).
  assert (Hevs : Forall (fun ev => is_cancel ev = false)
                        (race ++ [Refill; Work 0 (answer [])]))
    by (repeat constructor).
  pose proof (fetches_bounded_by_tokens (net := PlainURL.net)
                _ _ _ _ _ Hlive Hevs Hrun) as H.
  split; [exact H|]. split; vm_compute; reflexivity.
Defined.

Lemma crash_only_by_late_send_witness :
  exists r,
    run (net := PlainURL.net) (late_link ++ [Work 0 idle])
        (Crawl_start (crawler_of 1 1) "http://ex.test/" 0) = Some r
    /\ crashed r = true
    /\ closed (jobs r) = true
    /\ exists i, pool r !! i = Some WPanicked.
Proof.
  eexists. split; [vm_compute; reflexivity|].
  match goal with |- crashed ?r = true /\ _ =>
    assert (Hrun : run (net := PlainURL.net) (late_link ++ [Work 0 idle])
                     (Crawl_start (crawler_of 1 1) "http://ex.test/" 0) = Some r)
      by (vm_compute; reflexivity)
  end.
  assert (Hlive : limiter_live (crawler_of 1 1)) by (split; reflexivity).
  destruct (crash_only_by_late_send (net := PlainURL.net) _ _ _ _ _ Hlive Hrun)
    as (_ & Hcrash & _).
  split; [reflexivity|]. apply Hcrash. reflexivity.
Defined.

Lemma send_on_closed_queue_panics_witness :
  exists r,
    run (net := PlainURL.net) late_link
        (Crawl_start (crawler_of 1 1) "http://ex.test/" 0) = Some r
    /\ main r = MainJoining
    /\ exists r',
        step (Work 0 idle) r = Some r'
        /\ crashed r' = true
        /\ pool r' !! 0%nat = Some WPanicked
        /\ jobs r' = jobs r
        /\ forall ev, step ev r' = None.
Proof.
  eexists. split; [vm_compute; reflexivity|].
  split; [reflexivity|].
  match goal with |- exists r', step _ ?r = _ /\ _ =>
    destruct (send_on_closed_queue_panics (net := PlainURL.net) r 0
                (MkJob "http://ex.test/" 0)
                (PlainURL.Mk "http" "ex.test" "/" "") "/a" [] idle)
      as (r' & H)
  end.
  - reflexivity.
  - reflexivity.
  - reflexivity.
  - left. reflexivity.
  - vm_compute. discriminate.
  - vm_compute. reflexivity.
  - exists r'. exact H.
Defined.

Lemma no_workers_no_fetch_witness :
  exists r,
    run (net := PlainURL.net)
        [Monitor true false; Monitor true false; Monitor true false;
         Main 8; Main 9]
        (Crawl_start (crawler_of 0 2) "http://ex.test/" 1) = Some r
    /\ main r = MainStopped
    /\ buf (jobs r) = [MkJob "http://ex.test/" 0]
    /\ closed (jobs r) = true
    /\ Storage.duration (results (crawler r)) = 8.
Proof.
  destruct (no_workers_no_fetch (net := PlainURL.net)
              (crawler_of 0 2) "http://ex.test/" 1 8 9) as [_ H].
  - simpl. lia.
  - destruct (H eq_refl) as (r & Hrun & Hm & Hb & Hc & Hd).
    exists r. split; [exact Hrun|]. split; [exact Hm|]. split; [exact Hb|].
    split; [exact Hc|]. rewrite Hd. vm_compute. reflexivity.
Defined.


End RunFacts.

(* ===================================================================== *)
(** ** One worker never fetches an address twice                          *)
(* ===================================================================== *)

Module SoloFacts.
Import Crawler GoFacts Solo.

Section SoloRuns.
Context {net : NetURL}.

Ltac solo_cases H :=
  unfold step, worker_step, signal, record, enqueue_select in H;
  repeat case_match; simplify_eq.

Lemma solo_lookup (w w0 : wstate) (i : nat) :
  [w] !! i = Some w0 -> i = 0%nat /\ w0 = w.
Proof.
  destruct i as [|i]; simpl; [intros H; inversion H; auto | discriminate].
Qed.

Lemma step_solo (old : list Storage.Page) (ev : event) (r r' : Run) :
  solo_inv old r -> step ev r = Some r' -> solo_inv old r'.
Proof.
  intros (w & news & Hpool & Hpages & Hnd & Hvis & Hguard) Hstep.
  unfold solo_inv.
  solo_cases Hstep; simpl.
  all: try match goal with
       | H : pool _ !! _ = Some _ |- _ =>
           rewrite Hpool in H; apply solo_lookup in H as [-> <-]
       end.
  all: rewrite ?Hpool; simpl.
  (* the steps that record a page *)
  all: try match goal with
       | |- exists w' news', _ /\ _ ++ [?p] = _ /\ _ =>
           destruct Hguard as [Hv Hfresh];
           eexists; exists (news ++ [p]);
           split; [reflexivity|]; split;
           [rewrite Hpages, <- app_assoc; reflexivity|];
           rewrite map_app; simpl; split;
           [apply NoDup_app; split; [exact Hnd|]; split;
            [intros x Hx Hin; apply list_elem_of_singleton in Hin; subst x;
             apply Hfresh; apply list_elem_of_In; exact Hx
            | apply NoDup_singleton]|];
           split; [apply Forall_app; split; [exact Hvis|];
                   constructor; [exact Hv | constructor] | exact I]
       end.
  (* the other steps, but markVisited *)
  all: try (eexists; exists news; split; [reflexivity|];
            split; [exact Hpages|]; split; [exact Hnd|];
            split; [exact Hvis|]; first [exact Hguard | exact I | assumption]).
  (* markVisited *)
  eexists; exists news. split; [reflexivity|]. split; [exact Hpages|].
  split; [exact Hnd|]. simpl in Hguard. split.
  - eapply Forall_impl; [exact Hvis|]. intros p Hp.
    apply CrawlerFacts.isVisited_mark. right. exact Hp.
  - simpl. split; [apply CrawlerFacts.isVisited_mark; now left|].
    intros Hin. apply in_map_iff in Hin as (p & Hp & Hin).
    rewrite Forall_forall in Hvis.
    specialize (Hvis p (proj2 (list_elem_of_In _ _) Hin)). simpl in Hvis.
    rewrite Hp in Hvis. congruence.
Qed.

(** X18. With one worker no address is fetched twice: in every state of
    a crawl whose worker count is 1, the pages recorded since the start
    are for pairwise different addresses, each of them marked. *)
Theorem single_worker_no_duplicate (c : Crawler) (url : string) (t0 : Z)
    (evs : list event) (r : Run) :
  workers c = 1 ->
  run evs (Crawl_start c url t0) = Some r ->
  exists news,
    Storage.pages (results (crawler r)) = Storage.pages (results c) ++ news
    /\ NoDup (map Storage.URL news)
    /\ Forall (fun p => isVisited (crawler r) (Storage.URL p) = true) news.
Proof.
  intros Hone Hrun.
  assert (Hinv : solo_inv (Storage.pages (results c)) r).
  { revert Hrun.
    apply (EngineFacts.run_inv (solo_inv (Storage.pages (results c)))
             (step_solo (Storage.pages (results c)))).
    exists WIdle, []. simpl. rewrite Hone. simpl.
    split; [reflexivity|]. split; [now rewrite app_nil_r|].
    split; [constructor|]. split; [constructor | exact I]. }
  destruct Hinv as (w & news & _ & Hpages & Hnd & Hvis & _).
  exists news. auto.
Qed.

End SoloRuns.

Import Scenario.

(** One worker in place of the two of the schedule [race]: the second
    job for [http://ex.test/a] is skipped. *)
Lemma single_worker_no_duplicate_witness :
  exists r,
    run (net := PlainURL.net)
        (take_seed 0
         ++ [Work 0 (answer ["/a"; "http://ex.test/a"]);
             Work 0 idle; Work 0 idle; Work 0 idle]
         ++ take_seed 0 ++ [Work 0 (answer [])]
         ++ [Work 0 idle; Work 0 idle])
        (Crawl_start (crawler_of 1 1) "http://ex.test/" 0) = Some r
    /\ pool r = [WIdle]
    /\ buf (jobs r) = []
    /\ exists news,
        Storage.pages (results (crawler r)) = [] ++ news
        /\ NoDup (map Storage.URL news)
        /\ Forall (fun p => isVisited (crawler r) (Storage.URL p) = true) news.
Proof.
  eexists. split; [vm_compute; reflexivity|].
  split; [reflexivity|]. split; [reflexivity|].
  match goal with |- exists news, Storage.pages (results (crawler ?r)) = _ /\ _ =>
    assert (Hrun : run (net := PlainURL.net)
                     (take_seed 0
                      ++ [Work 0 (answer ["/a"; "http://ex.test/a"]);
                          Work 0 idle; Work 0 idle; Work 0 idle]
                      ++ take_seed 0 ++ [Work 0 (answer [])]
                      ++ [Work 0 idle; Work 0 idle])
                     (Crawl_start (crawler_of 1 1) "http://ex.test/" 0) = Some r)
      by (vm_compute; reflexivity)
  end.
  assert (Hone : workers (crawler_of 1 1) = 1) by reflexivity.
  exact (single_worker_no_duplicate (net := PlainURL.net) _ _ _ _ _ Hone Hrun).
Defined.

End SoloFacts.

(* ===================================================================== *)
(** ** The latency of the monitor and the period of the limiter           *)
(* ===================================================================== *)

Module LatencyFacts.
Import Crawler GoFacts.

Section Latency.
Context {net : NetURL}.




End Latency.


Import Scenario.



End LatencyFacts.
